(** * Command pattern of design-patterns: undo history of the invokers

    Shallow embedding of the two Command-pattern programs of the repository:

    - [SimpleCommand]: behavioral/simple_command.c, a remote control that
      drives a light and keeps a bounded undo history;
    - [Command]: behavioral/command.c, text-editor commands and a command
      manager with a cursor into its history that supports undo and redo.

    The C heap is modelled as typed stores indexed by addresses; the history
    arrays hold addresses, so that a command object pressed twice is the same
    object both times.  Undefined behaviour (dereferencing a dangling pointer,
    indexing out of an array) is [None].  An [int] is a [Z]: the counters of
    the invokers move by one, under guards that keep them next to the array
    indices, so that no operation studied here overflows. *)

From Stdlib Require Import ZArith String Ascii List Lia.
From stdpp Require Import base option list gmap strings pretty.

Local Open Scope Z_scope.

(** Address of a heap-allocated ([malloc]) object. *)
Abbreviation ptr := positive.

(** The line feed written [\n] in the C string literals. *)
Definition LF : string := String (ascii_of_nat 10) EmptyString.

(** [printf("%d", n)] *)
Definition fmt_d (n : Z) : string := pretty n.

(** Fixed-size C arrays are lists of their declared length; an access outside
    the bounds is undefined. *)
Definition array_get {A} (a : list A) (i : Z) : option A :=
  if decide (0 <= i < Z.of_nat (length a)) then a !! Z.to_nat i else None.

Definition array_set {A} (a : list A) (i : Z) (v : A) : option (list A) :=
  if decide (0 <= i < Z.of_nat (length a)) then Some (<[Z.to_nat i := v]> a) else None.

(** Closes a goal about concrete objects by evaluating both sides. *)
Ltac by_evaluation := vm_compute; first [reflexivity | discriminate | exact I].

(** Closes an arithmetic side condition on concrete objects. *)
Ltac by_arith := vm_compute; repeat split; first [discriminate | reflexivity | lia].

Module SimpleCommand.

(** ** The device *)

Record Light := mkLight {
  is_on : Z;
  brightness : Z (* 0-100 *)
}.

(** ** Command objects

    [struct Command] carries a name and two function pointers; the three
    concrete structs extend it.  The function pointers are fixed by the
    [create_*] functions, so the variant determines them (see [execute] and
    [undo] below). *)
Inductive Command :=
| TurnOnCommand (name : string) (light : ptr)
| TurnOffCommand (name : string) (light : ptr)
| BrightnessCommand (name : string) (light : ptr) (new_brightness old_brightness : Z).

Definition name (c : Command) : string :=
  match c with
  | TurnOnCommand n _ | TurnOffCommand n _ | BrightnessCommand n _ _ _ => n
  end.

Definition light (c : Command) : ptr :=
  match c with
  | TurnOnCommand _ l | TurnOffCommand _ l | BrightnessCommand _ l _ _ => l
  end.

(** ** Program memory: the lights, the command objects and standard output
    (one entry per [printf] call, oldest first). *)
Record Mem := mkMem {
  lights : gmap ptr Light;
  commands : gmap ptr Command;
  stdout : list string
}.

Definition printf (s : string) (m : Mem) : Mem :=
  mkMem (lights m) (commands m) (stdout m ++ [s]).

Definition store_light (p : ptr) (l : Light) (m : Mem) : Mem :=
  mkMem (<[p := l]> (lights m)) (commands m) (stdout m).

Definition store_command (p : ptr) (c : Command) (m : Mem) : Mem :=
  mkMem (lights m) (<[p := c]> (commands m)) (stdout m).

(** The assignments [light->is_on = v] and [light->brightness = v]. *)
Definition set_is_on (v : Z) (l : Light) : Light := mkLight v (brightness l).

Definition set_brightness (v : Z) (l : Light) : Light := mkLight (is_on l) v.

Definition show_light_status (p : ptr) (m : Mem) : option Mem :=
  l ← lights m !! p;
  if decide (is_on l ≠ 0)
  then Some (printf ("💡 Light is ON (brightness: " +:+ fmt_d (brightness l)
                     +:+ "%)" +:+ LF) m)
  else Some (printf ("🔲 Light is OFF" +:+ LF) m).

(** Allocation: [malloc] returns an address that is not in use. *)
Definition create_light (m : Mem) : ptr * Mem :=
  let p := fresh (dom (lights m)) in
  (p, store_light p (mkLight 0 50) m).

(** ** Concrete commands

    The turn-on and turn-off functions cast [self] to their struct and use
    only its [light] field, which the three structs have at the same place. *)

Definition turn_on_execute (self : ptr) (m : Mem) : option Mem :=
  cmd ← commands m !! self;
  l ← lights m !! light cmd;
  let m := store_light (light cmd) (set_is_on 1 l) m in
  let m := printf ("🔘 Turned light ON" +:+ LF) m in
  show_light_status (light cmd) m.

Definition turn_on_undo (self : ptr) (m : Mem) : option Mem :=
  cmd ← commands m !! self;
  l ← lights m !! light cmd;
  let m := store_light (light cmd) (set_is_on 0 l) m in
  let m := printf ("↩️ Undoing: Turned light OFF" +:+ LF) m in
  show_light_status (light cmd) m.

Definition turn_off_execute (self : ptr) (m : Mem) : option Mem :=
  cmd ← commands m !! self;
  l ← lights m !! light cmd;
  let m := store_light (light cmd) (set_is_on 0 l) m in
  let m := printf ("🔘 Turned light OFF" +:+ LF) m in
  show_light_status (light cmd) m.

Definition turn_off_undo (self : ptr) (m : Mem) : option Mem :=
  cmd ← commands m !! self;
  l ← lights m !! light cmd;
  let m := store_light (light cmd) (set_is_on 1 l) m in
  let m := printf ("↩️ Undoing: Turned light ON" +:+ LF) m in
  show_light_status (light cmd) m.

(** The two brightness functions cast [self] to [BrightnessCommand*] and use
    the fields that only that struct has; on another object the access is
    outside the object. *)
Definition brightness_execute (self : ptr) (m : Mem) : option Mem :=
  cmd ← commands m !! self;
  match cmd with
  | BrightnessCommand n lp new_b _ =>
      l ← lights m !! lp;
      (* Save for undo *)
      let m := store_command self (BrightnessCommand n lp new_b (brightness l)) m in
      let l := set_brightness new_b l in
      let m := store_light lp l m in
      (* Turn on if changing brightness *)
      let l := set_is_on 1 l in
      let m := store_light lp l m in
      let m := printf ("🔆 Set brightness to " +:+ fmt_d new_b +:+ "%" +:+ LF) m in
      show_light_status lp m
  | _ => None
  end.

Definition brightness_undo (self : ptr) (m : Mem) : option Mem :=
  cmd ← commands m !! self;
  match cmd with
  | BrightnessCommand n lp new_b old_b =>
      l ← lights m !! lp;
      let m := store_light lp (set_brightness old_b l) m in
      let m := printf ("↩️ Undoing: Restored brightness to " +:+ fmt_d old_b
                       +:+ "%" +:+ LF) m in
      show_light_status lp m
  | _ => None
  end.

(** The function pointers [execute] and [undo] of a command object, as the
    [create_*] functions set them. *)
Definition execute (c : Command) : ptr → Mem → option Mem :=
  match c with
  | TurnOnCommand _ _ => turn_on_execute
  | TurnOffCommand _ _ => turn_off_execute
  | BrightnessCommand _ _ _ _ => brightness_execute
  end.

Definition undo (c : Command) : ptr → Mem → option Mem :=
  match c with
  | TurnOnCommand _ _ => turn_on_undo
  | TurnOffCommand _ _ => turn_off_undo
  | BrightnessCommand _ _ _ _ => brightness_undo
  end.

Definition alloc_command (c : Command) (m : Mem) : ptr * Mem :=
  let p := fresh (dom (commands m)) in
  (p, store_command p c m).

Definition create_turn_on_command (light : ptr) (m : Mem) : ptr * Mem :=
  alloc_command (TurnOnCommand "Turn On" light) m.

Definition create_turn_off_command (light : ptr) (m : Mem) : ptr * Mem :=
  alloc_command (TurnOffCommand "Turn Off" light) m.

Definition create_brightness_command (light : ptr) (brightness : Z) (m : Mem) : ptr * Mem :=
  alloc_command
    (BrightnessCommand ("Set Brightness " +:+ fmt_d brightness +:+ "%") light brightness 0) m.

(** ** The remote control *)

Definition MAX_HISTORY : Z := 10.

(** [history] has [MAX_HISTORY] slots; a slot that was never written holds an
    indeterminate pointer ([None]). *)
Record RemoteControl := mkRemote {
  history : list (option ptr);
  history_count : Z
}.

Definition create_remote : RemoteControl :=
  mkRemote (replicate (Z.to_nat MAX_HISTORY) None) 0.

Definition press_button (remote : RemoteControl) (command : ptr) (m : Mem)
  : option (RemoteControl * Mem) :=
  c ← commands m !! command;
  let m := printf (LF +:+ "🔘 Pressing '" +:+ name c +:+ "' button" +:+ LF) m in
  m ← execute c command m;
  (* Save to history for undo *)
  if decide (history_count remote < MAX_HISTORY) then
    h ← array_set (history remote) (history_count remote) (Some command);
    Some (mkRemote h (history_count remote + 1), m)
  else Some (remote, m).

Definition press_undo (remote : RemoteControl) (m : Mem)
  : option (RemoteControl * Mem) :=
  if decide (history_count remote > 0) then
    last_command ← array_get (history remote) (history_count remote - 1) ≫= id;
    let m := printf (LF +:+ "↩️ Pressing UNDO button" +:+ LF) m in
    c ← commands m !! last_command;
    m ← undo c last_command m;
    Some (mkRemote (history remote) (history_count remote - 1), m)
  else Some (remote, printf (LF +:+ "❌ Nothing to undo" +:+ LF) m).

(** A run of the invoker: a sequence of button and undo presses. *)
Inductive Op :=
| PressButton (command : ptr)
| PressUndo.

Definition step (op : Op) (s : RemoteControl * Mem) : option (RemoteControl * Mem) :=
  match op with
  | PressButton command => press_button s.1 command s.2
  | PressUndo => press_undo s.1 s.2
  end.

Fixpoint run (ops : list Op) (s : RemoteControl * Mem) : option (RemoteControl * Mem) :=
  match ops with
  | [] => Some s
  | op :: ops => s ← step op s; run ops s
  end.

(** The part of the array that holds recorded commands, and its last entry. *)
Definition recorded (remote : RemoteControl) : list (option ptr) :=
  take (Z.to_nat (history_count remote)) (history remote).

Definition tip (remote : RemoteControl) : option ptr :=
  array_get (history remote) (history_count remote - 1) ≫= id.

(** What a later operation can depend on: the recorded history, the count
    and the memory (see [run_recorded_only]). *)
Definition observable (s : RemoteControl * Mem) : list (option ptr) * Z * Mem :=
  (recorded s.1, history_count s.1, s.2).

(** The spec's cursor: index of the most recently executed command that has
    not been undone. *)
Definition cursor (remote : RemoteControl) : Z := history_count remote - 1.

(** The lines that the invoker prints. *)
Definition pressing_line (c : Command) : string :=
  LF +:+ "🔘 Pressing '" +:+ name c +:+ "' button" +:+ LF.

Definition undo_line : string := LF +:+ "↩️ Pressing UNDO button" +:+ LF.

Definition nothing_to_undo_line : string := LF +:+ "❌ Nothing to undo" +:+ LF.

(** What [show_light_status] prints for a light. *)
Definition status_line (l : Light) : string :=
  if decide (is_on l ≠ 0)
  then "💡 Light is ON (brightness: " +:+ fmt_d (brightness l) +:+ "%)" +:+ LF
  else "🔲 Light is OFF" +:+ LF.

(** Every command object points to an allocated light. *)
Definition wf_mem (m : Mem) : Prop :=
  map_Forall (λ _ c, is_Some (lights m !! light c)) (commands m).

#[global] Instance wf_mem_dec m : Decision (wf_mem m).
Proof. unfold wf_mem. apply _. Defined.

(** [m'] has the same objects as [m]: the same lights are allocated and the
    same commands exist, each bound to the same light. *)
Definition same_objects (m m' : Mem) : Prop :=
  dom (lights m') = dom (lights m) ∧
  (∀ p, light <$> commands m' !! p = light <$> commands m !! p).

(** A button press that names a command object of the memory, and a history
    whose recorded entries are command objects of the memory. *)
Definition op_ok (m : Mem) (op : Op) : Prop :=
  match op with
  | PressButton p => is_Some (commands m !! p)
  | PressUndo => True
  end.

Definition recorded_ok (r : RemoteControl) (m : Mem) : Prop :=
  ∀ i, (i < Z.to_nat (history_count r))%nat →
       ∃ p, history r !! i = Some (Some p) ∧ is_Some (commands m !! p).

(** The struct of a well-formed remote control: the array has its declared
    size. *)
Definition wf_remote (remote : RemoteControl) : Prop :=
  length (history remote) = Z.to_nat MAX_HISTORY.

(** The light as a command's forward effect leaves it, the command object as
    it is afterwards (the brightness command saves the prior brightness in
    itself), and the light as the inverse effect leaves it. *)
Definition forward_effect (c : Command) (l : Light) : Light :=
  match c with
  | TurnOnCommand _ _ => mkLight 1 (brightness l)
  | TurnOffCommand _ _ => mkLight 0 (brightness l)
  | BrightnessCommand _ _ nb _ => mkLight 1 nb
  end.

Definition saved (c : Command) (l : Light) : Command :=
  match c with
  | BrightnessCommand n lp nb _ => BrightnessCommand n lp nb (brightness l)
  | _ => c
  end.

Definition inverse_effect (c : Command) (l : Light) : Light :=
  match c with
  | TurnOnCommand _ _ => mkLight 0 (brightness l)
  | TurnOffCommand _ _ => mkLight 1 (brightness l)
  | BrightnessCommand _ _ _ ob => mkLight (is_on l) ob
  end.

(** The value of [is_on] that a command's inverse effect writes back; for the
    brightness command, whose inverse leaves [is_on] alone, the value that its
    forward effect wrote. *)
Definition is_on_after_undo (c : Command) : Z :=
  match c with
  | TurnOnCommand _ _ => 0
  | TurnOffCommand _ _ => 1
  | BrightnessCommand _ _ _ _ => 1
  end.

(** ** The objects that [main] creates *)

Definition empty_mem : Mem := mkMem ∅ ∅ [].

Record Demo := mkDemo {
  bedroom_light : ptr;
  turn_on : ptr;
  turn_off : ptr;
  dim : ptr;
  bright : ptr;
  demo_mem : Mem
}.

Definition demo : Demo :=
  let '(bedroom_light, m) := create_light empty_mem in
  let '(turn_on, m) := create_turn_on_command bedroom_light m in
  let '(turn_off, m) := create_turn_off_command bedroom_light m in
  let '(dim, m) := create_brightness_command bedroom_light 25 m in
  let '(bright, m) := create_brightness_command bedroom_light 90 m in
  mkDemo bedroom_light turn_on turn_off dim bright m.

(** Ten presses, which fill the history, and the state they lead to. *)
Definition demo_fill : list Op :=
  [PressButton (turn_on demo); PressButton (bright demo); PressButton (dim demo);
   PressButton (turn_off demo); PressButton (turn_on demo); PressButton (bright demo);
   PressButton (dim demo); PressButton (turn_off demo); PressButton (turn_on demo);
   PressButton (bright demo)].

(** The state of [main]'s objects after a sequence of presses on a new
    remote control. *)
Definition demo_after (ops : list Op) : RemoteControl * Mem :=
  default (create_remote, demo_mem demo) (run ops (create_remote, demo_mem demo)).

Definition demo_three : RemoteControl * Mem :=
  demo_after [PressButton (turn_on demo); PressButton (bright demo); PressButton (dim demo)].

Definition demo_full : RemoteControl * Mem := demo_after demo_fill.

#[global] Instance op_ok_dec m op : Decision (op_ok m op).
Proof. destruct op; simpl; apply _. Defined.

(** A sequence of presses each of which finds its light with the [is_on]
    that its undo function leaves (see [is_on_after_undo]). *)
Fixpoint invertible_presses (ps : list ptr) (s : RemoteControl * Mem) : Prop :=
  match ps with
  | [] => True
  | p :: ps =>
      (∃ c S, commands s.2 !! p = Some c ∧ lights s.2 !! light c = Some S ∧
              is_on S = is_on_after_undo c) ∧
      ∀ s', press_button s.1 p s.2 = Some s' → invertible_presses ps s'
  end.

(** The four presses of [main], and a second light in its memory. *)
Definition demo_presses : list ptr := [turn_on demo; bright demo; dim demo; turn_off demo].

Definition demo_two_lights : ptr * Mem := create_light (demo_mem demo).

(** What a sequence of presses does to the memory, whatever the history
    keeps of it: for each command in turn, the line that [press_button]
    prints and the call of the command's execute function. *)
Fixpoint execute_all (ps : list ptr) (m : Mem) : option Mem :=
  match ps with
  | [] => Some m
  | p :: ps =>
      c ← commands m !! p;
      m ← execute c p (printf (pressing_line c) m);
      execute_all ps m
  end.

(** [main]'s objects with one more command, which sets the brightness to
    10, and the state after the ten presses of [demo_fill] in that memory. *)
Definition demo_ten : ptr * Mem :=
  create_brightness_command (bedroom_light demo) 10 (demo_mem demo).

Definition demo_ten_full : RemoteControl * Mem :=
  default (create_remote, demo_ten.2) (run demo_fill (create_remote, demo_ten.2)).

End SimpleCommand.

(** * behavioral/command.c: text-editor commands and an invoker with undo
    and redo

    The program headed COMMAND PATTERN; the sources carry it in
    behavioral/simple_strategy.c, after the strategy program. *)
Module Command.

(** ** C strings in fixed-size [char] arrays *)

Definition NUL : ascii := ascii_of_nat 0.

(** The value that the source's character constant made of a backslash
    character followed by the digit 0 has once it is stored in a [char]: a
    multi-character constant, 0x5C30 with GCC, whose low byte is the digit
    zero.  It is not the terminator. *)
Definition backslash_zero : ascii := "0"%char.

Fixpoint strlen_list (a : list ascii) : option nat :=
  match a with
  | [] => None
  | c :: a => if decide (c = NUL) then Some O else S <$> strlen_list a
  end.

(** [strlen(a)]: undefined when no terminator lies within the array. *)
Definition strlen (a : list ascii) : option Z := Z.of_nat <$> strlen_list a.

(** The text that [printf("%s", a)] writes. *)
Definition c_str (a : list ascii) : option string :=
  n ← strlen_list a; Some (string_of_list_ascii (take n a)).

(** The characters of the string that an array holds: those before the
    first terminator. *)
Definition c_chars (a : list ascii) : option (list ascii) :=
  n ← strlen_list a; Some (take n a).

(** [strcpy(dst, src)] for a terminated string [src], given as its
    characters. *)
Definition strcpy (dst : list ascii) (src : list ascii) : option (list ascii) :=
  if decide (length src < length dst)%nat
  then Some (src ++ NUL :: drop (S (length src)) dst)
  else None.

(** [strncpy(dst, &src[from], n)]: copies until [n] characters are written
    or the terminator has been copied, then pads with terminators. *)
Fixpoint strncpy_loop (n : nat) (k : Z) (padding : bool)
    (src : list ascii) (from : Z) (dst : list ascii) : option (list ascii) :=
  match n with
  | O => Some dst
  | S n =>
      if padding then
        dst ← array_set dst k NUL;
        strncpy_loop n (k + 1) true src from dst
      else
        c ← array_get src (from + k);
        dst ← array_set dst k c;
        strncpy_loop n (k + 1) (bool_decide (c = NUL)) src from dst
  end.

Definition strncpy (dst : list ascii) (src : list ascii) (from : Z) (n : Z)
  : option (list ascii) :=
  if decide (0 <= n ∧ 0 <= from <= Z.of_nat (length src))
  then strncpy_loop (Z.to_nat n) 0 false src from dst
  else None.

(** [for (i = hi; i >= lo; i--) body] and [for (i = lo; i < hi; i++) body],
    where the body does not assign [i] or the bounds. *)
Fixpoint iter_down {St} (n : nat) (i : Z) (body : Z → St → option St) (s : St) : option St :=
  match n with
  | O => Some s
  | S n => s ← body i s; iter_down n (i - 1) body s
  end.

Fixpoint iter_up {St} (n : nat) (i : Z) (body : Z → St → option St) (s : St) : option St :=
  match n with
  | O => Some s
  | S n => s ← body i s; iter_up n (i + 1) body s
  end.

Definition for_down {St} (hi lo : Z) (body : Z → St → option St) (s : St) : option St :=
  iter_down (Z.to_nat (hi - lo + 1)) hi body s.

Definition for_up {St} (lo hi : Z) (body : Z → St → option St) (s : St) : option St :=
  iter_up (Z.to_nat (hi - lo)) lo body s.

(** ** Receiver: the text editor

    The five function pointers of the struct are set once by
    [create_text_editor] to the functions below, which are called directly
    here. *)
Record TextEditor := mkEditor {
  content : list ascii;       (* char content[1000] *)
  cursor_position : Z;
  clipboard : list ascii      (* char clipboard[500] *)
}.

(** ** Command objects *)
Inductive Command :=
| InsertCommand (name : string) (editor : ptr) (text : list ascii) (position : Z)
| DeleteCommand (name : string) (editor : ptr) (start_position length : Z)
    (deleted_text : list ascii)
| CopyCommand (name : string) (editor : ptr) (start_position length : Z)
| PasteCommand (name : string) (editor : ptr) (position : Z)
    (pasted_text : list ascii) (pasted_length : Z).

Definition name (c : Command) : string :=
  match c with
  | InsertCommand n _ _ _ | DeleteCommand n _ _ _ _ | CopyCommand n _ _ _
  | PasteCommand n _ _ _ _ => n
  end.

Definition editor (c : Command) : ptr :=
  match c with
  | InsertCommand _ e _ _ | DeleteCommand _ e _ _ _ | CopyCommand _ e _ _
  | PasteCommand _ e _ _ _ => e
  end.

Record Mem := mkMem {
  editors : gmap ptr TextEditor;
  commands : gmap ptr Command;
  stdout : list string
}.

Definition printf (s : string) (m : Mem) : Mem :=
  mkMem (editors m) (commands m) (stdout m ++ [s]).

Definition store_editor (p : ptr) (e : TextEditor) (m : Mem) : Mem :=
  mkMem (<[p := e]> (editors m)) (commands m) (stdout m).

Definition store_command (p : ptr) (c : Command) (m : Mem) : Mem :=
  mkMem (editors m) (<[p := c]> (commands m)) (stdout m).

Definition free_command (p : ptr) (m : Mem) : Mem :=
  mkMem (editors m) (delete p (commands m)) (stdout m).

(** [text] is the array that the [const char*] argument points to. *)
Definition text_editor_insert_text (self : ptr) (text : list ascii) (position : Z)
    (m : Mem) : option Mem :=
  ed ← editors m !! self;
  text_len ← strlen text;
  content_len ← strlen (content ed);
  (* Move existing text to make room *)
  c ← for_down content_len position
         (λ i c, x ← array_get c i; array_set c (i + text_len) x) (content ed);
  (* Insert new text *)
  c ← for_up 0 text_len
         (λ i c, x ← array_get text i; array_set c (position + i) x) c;
  let m := store_editor self (mkEditor c (position + text_len) (clipboard ed)) m in
  s ← c_str text;
  Some (printf ("✏️ Inserted '" +:+ s +:+ "' at position " +:+ fmt_d position +:+ LF) m).

Definition text_editor_delete_text (self : ptr) (start length : Z) (m : Mem)
  : option Mem :=
  ed ← editors m !! self;
  content_len ← strlen (content ed);
  (* Shift text left to fill the gap *)
  c ← for_up start (content_len - length + 1)
         (λ i c, x ← array_get c (i + length); array_set c i x) (content ed);
  let m := store_editor self (mkEditor c start (clipboard ed)) m in
  Some (printf ("🗑️ Deleted " +:+ fmt_d length +:+ " characters from position "
                +:+ fmt_d start +:+ LF) m).

Definition text_editor_copy_text (self : ptr) (start length : Z) (m : Mem)
  : option Mem :=
  ed ← editors m !! self;
  cb ← strncpy (clipboard ed) (content ed) start length;
  cb ← array_set cb length backslash_zero;
  let m := store_editor self (mkEditor (content ed) (cursor_position ed) cb) m in
  s ← c_str cb;
  Some (printf ("📋 Copied '" +:+ s +:+ "' to clipboard" +:+ LF) m).

Definition text_editor_paste_text (self : ptr) (position : Z) (m : Mem) : option Mem :=
  ed ← editors m !! self;
  m ← text_editor_insert_text self (clipboard ed) position m;
  Some (printf ("📋 Pasted from clipboard" +:+ LF) m).

(** ** Concrete commands *)

Definition insert_command_execute (self : ptr) (m : Mem) : option Mem :=
  cmd ← commands m !! self;
  match cmd with
  | InsertCommand _ ed text position => text_editor_insert_text ed text position m
  | _ => None
  end.

Definition insert_command_undo (self : ptr) (m : Mem) : option Mem :=
  cmd ← commands m !! self;
  match cmd with
  | InsertCommand _ ed text position =>
      n ← strlen text;
      m ← text_editor_delete_text ed position n m;
      s ← c_str text;
      Some (printf ("↩️ Undone: Insert '" +:+ s +:+ "'" +:+ LF) m)
  | _ => None
  end.

Definition delete_command_execute (self : ptr) (m : Mem) : option Mem :=
  cmd ← commands m !! self;
  match cmd with
  | DeleteCommand n ep start length deleted_text =>
      ed ← editors m !! ep;
      (* Save deleted text for undo *)
      d ← strncpy deleted_text (content ed) start length;
      d ← array_set d length backslash_zero;
      let m := store_command self (DeleteCommand n ep start length d) m in
      text_editor_delete_text ep start length m
  | _ => None
  end.

Definition delete_command_undo (self : ptr) (m : Mem) : option Mem :=
  cmd ← commands m !! self;
  match cmd with
  | DeleteCommand _ ep start _ deleted_text =>
      m ← text_editor_insert_text ep deleted_text start m;
      s ← c_str deleted_text;
      Some (printf ("↩️ Undone: Delete '" +:+ s +:+ "'" +:+ LF) m)
  | _ => None
  end.

Definition copy_command_execute (self : ptr) (m : Mem) : option Mem :=
  cmd ← commands m !! self;
  match cmd with
  | CopyCommand _ ep start length => text_editor_copy_text ep start length m
  | _ => None
  end.

(** The function does not use [self]. *)
Definition copy_command_undo (self : ptr) (m : Mem) : option Mem :=
  (* Copy operation doesn't need undo *)
  Some (printf ("↩️ Copy operation cannot be undone" +:+ LF) m).

Definition paste_command_execute (self : ptr) (m : Mem) : option Mem :=
  cmd ← commands m !! self;
  match cmd with
  | PasteCommand n ep position pasted_text _ =>
      ed ← editors m !! ep;
      (* Save what will be pasted for undo *)
      k ← strlen_list (clipboard ed);
      pt ← strcpy pasted_text (take k (clipboard ed));
      pl ← strlen pt;
      let m := store_command self (PasteCommand n ep position pt pl) m in
      text_editor_paste_text ep position m
  | _ => None
  end.

Definition paste_command_undo (self : ptr) (m : Mem) : option Mem :=
  cmd ← commands m !! self;
  match cmd with
  | PasteCommand _ ep position pasted_text pasted_length =>
      m ← text_editor_delete_text ep position pasted_length m;
      s ← c_str pasted_text;
      Some (printf ("↩️ Undone: Paste '" +:+ s +:+ "'" +:+ LF) m)
  | _ => None
  end.

(** The four [*_destroy] functions are the same: [free(self)]. *)
Definition command_destroy (self : ptr) (m : Mem) : option Mem :=
  _ ← commands m !! self;
  Some (free_command self m).

(** The function pointers of a command object, as the [create_*] functions
    set them. *)
Definition execute (c : Command) : ptr → Mem → option Mem :=
  match c with
  | InsertCommand _ _ _ _ => insert_command_execute
  | DeleteCommand _ _ _ _ _ => delete_command_execute
  | CopyCommand _ _ _ _ => copy_command_execute
  | PasteCommand _ _ _ _ _ => paste_command_execute
  end.

Definition undo (c : Command) : ptr → Mem → option Mem :=
  match c with
  | InsertCommand _ _ _ _ => insert_command_undo
  | DeleteCommand _ _ _ _ _ => delete_command_undo
  | CopyCommand _ _ _ _ => copy_command_undo
  | PasteCommand _ _ _ _ _ => paste_command_undo
  end.

Definition destroy (c : Command) : ptr → Mem → option Mem := command_destroy.

(** ** Allocation

    [malloc] returns an unused address and memory with indeterminate
    content; the content that a [char] array starts with is the argument
    [junk]. *)
Definition malloc_chars (n : nat) (junk : nat → ascii) : list ascii := junk <$> seq 0 n.

Definition create_text_editor (junk_content junk_clipboard : nat → ascii) (m : Mem)
  : option (ptr * Mem) :=
  c ← strcpy (malloc_chars 1000 junk_content) [];
  cb ← strcpy (malloc_chars 500 junk_clipboard) [];
  let p := fresh (dom (editors m)) in
  Some (p, store_editor p (mkEditor c 0 cb) m).

Definition alloc_command (c : Command) (m : Mem) : ptr * Mem :=
  let p := fresh (dom (commands m)) in
  (p, store_command p c m).

Definition create_insert_command (editor : ptr) (text : string) (position : Z)
    (junk : nat → ascii) (m : Mem) : option (ptr * Mem) :=
  t ← strcpy (malloc_chars 200 junk) (list_ascii_of_string text);
  Some (alloc_command (InsertCommand "Insert" editor t position) m).

Definition create_delete_command (editor : ptr) (start length : Z)
    (junk : nat → ascii) (m : Mem) : option (ptr * Mem) :=
  d ← strcpy (malloc_chars 200 junk) [];
  Some (alloc_command (DeleteCommand "Delete" editor start length d) m).

Definition create_copy_command (editor : ptr) (start length : Z) (m : Mem)
  : option (ptr * Mem) :=
  Some (alloc_command (CopyCommand "Copy" editor start length) m).

Definition create_paste_command (editor : ptr) (position : Z)
    (junk : nat → ascii) (m : Mem) : option (ptr * Mem) :=
  t ← strcpy (malloc_chars 200 junk) [];
  Some (alloc_command (PasteCommand "Paste" editor position t 0) m).

(** ** Invoker: the command manager (supports undo/redo) *)

Definition MAX_COMMANDS : Z := 50.

(** A slot of [command_history] that was never written holds an
    indeterminate pointer ([None]). *)
Record CommandManager := mkManager {
  command_history : list (option ptr);
  current_index : Z;
  history_size : Z
}.

Definition create_command_manager : CommandManager :=
  mkManager (replicate (Z.to_nat MAX_COMMANDS) None) (-1) 0.

Definition execute_command (manager : CommandManager) (command : ptr) (m : Mem)
  : option (CommandManager * Mem) :=
  c ← commands m !! command;
  let m := printf (LF +:+ "🎬 Executing: " +:+ name c +:+ LF) m in
  m ← execute c command m;
  (* Clear any commands after current position (for redo) *)
  m ← for_up (current_index manager + 1) (history_size manager)
         (λ i m, p ← array_get (command_history manager) i ≫= id;
                 c ← commands m !! p;
                 destroy c p m) m;
  (* Add command to history *)
  let current_index := current_index manager + 1 in
  h ← array_set (command_history manager) current_index (Some command);
  Some (mkManager h current_index (current_index + 1), m).

Definition undo_command (manager : CommandManager) (m : Mem)
  : option (CommandManager * Mem) :=
  if decide (current_index manager >= 0) then
    command ← array_get (command_history manager) (current_index manager) ≫= id;
    c ← commands m !! command;
    let m := printf (LF +:+ "↩️ Undoing: " +:+ name c +:+ LF) m in
    m ← undo c command m;
    Some (mkManager (command_history manager) (current_index manager - 1)
                    (history_size manager), m)
  else Some (manager, printf (LF +:+ "❌ Nothing to undo" +:+ LF) m).

Definition redo_command (manager : CommandManager) (m : Mem)
  : option (CommandManager * Mem) :=
  if decide (current_index manager + 1 < history_size manager) then
    let current_index := current_index manager + 1 in
    command ← array_get (command_history manager) current_index ≫= id;
    c ← commands m !! command;
    let m := printf (LF +:+ "↪️ Redoing: " +:+ name c +:+ LF) m in
    m ← execute c command m;
    Some (mkManager (command_history manager) current_index (history_size manager), m)
  else Some (manager, printf (LF +:+ "❌ Nothing to redo" +:+ LF) m).

(** A run of the invoker. *)
Inductive Op :=
| Execute (command : ptr)
| Undo
| Redo.

Definition step (op : Op) (s : CommandManager * Mem) : option (CommandManager * Mem) :=
  match op with
  | Execute command => execute_command s.1 command s.2
  | Undo => undo_command s.1 s.2
  | Redo => redo_command s.1 s.2
  end.

Fixpoint run (ops : list Op) (s : CommandManager * Mem) : option (CommandManager * Mem) :=
  match ops with
  | [] => Some s
  | op :: ops => s ← step op s; run ops s
  end.

(** ** The objects that [main] creates, in memory that [malloc] returns
    zeroed *)

Definition empty_mem : Mem := mkMem ∅ ∅ [].

Definition zeroed : nat → ascii := λ _, NUL.

Record Demo := mkDemo {
  demo_editor : ptr;
  insert_hello : ptr;
  insert_world : ptr;
  insert_bang : ptr;
  copy_hello : ptr;
  insert_space : ptr;
  paste : ptr;
  delete_world : ptr;
  demo_mem : Mem
}.

Definition create_demo : option Demo :=
  '(ed, m) ← create_text_editor zeroed zeroed empty_mem;
  '(c1, m) ← create_insert_command ed "Hello" 0 zeroed m;
  '(c2, m) ← create_insert_command ed " World" 5 zeroed m;
  '(c3, m) ← create_insert_command ed "!" 11 zeroed m;
  '(c4, m) ← create_copy_command ed 0 5 m;
  '(c5, m) ← create_insert_command ed " " 12 zeroed m;
  '(c6, m) ← create_paste_command ed 13 zeroed m;
  '(c7, m) ← create_delete_command ed 6 5 zeroed m;
  Some (mkDemo ed c1 c2 c3 c4 c5 c6 c7 m).

(** Every creation above is defined, so the default is not used. *)
Definition demo : Demo :=
  default (mkDemo 1 1 1 1 1 1 1 1 empty_mem) create_demo.

(** The state of [main]'s objects after a sequence of operations on a new
    command manager (all the sequences used below are defined). *)
Definition demo_after (ops : list Op) : CommandManager * Mem :=
  default (create_command_manager, demo_mem demo)
          (run ops (create_command_manager, demo_mem demo)).

(** The lines that the invoker prints. *)
Definition executing_line (c : Command) : string :=
  LF +:+ "🎬 Executing: " +:+ name c +:+ LF.

Definition undoing_line (c : Command) : string :=
  LF +:+ "↩️ Undoing: " +:+ name c +:+ LF.

Definition redoing_line (c : Command) : string :=
  LF +:+ "↪️ Redoing: " +:+ name c +:+ LF.

Definition nothing_to_undo_line : string := LF +:+ "❌ Nothing to undo" +:+ LF.

Definition nothing_to_redo_line : string := LF +:+ "❌ Nothing to redo" +:+ LF.

(** The loop of [execute_command] that destroys the commands after the
    current position. *)
Definition clear_future (manager : CommandManager) (m : Mem) : option Mem :=
  for_up (current_index manager + 1) (history_size manager)
    (λ i m, p ← array_get (command_history manager) i ≫= id;
            c ← commands m !! p;
            destroy c p m) m.

(** [destroy_command_manager]: destroys every command of the history, then
    frees the manager itself (the manager is a value here). *)
Definition destroy_command_manager (manager : CommandManager) (m : Mem) : option Mem :=
  for_up 0 (history_size manager)
    (λ i m, p ← array_get (command_history manager) i ≫= id;
            c ← commands m !! p;
            destroy c p m) m.

(** Destroying the commands of a list of addresses, in order. *)
Fixpoint free_all (ps : list ptr) (m : Mem) : option Mem :=
  match ps with
  | [] => Some m
  | p :: ps => m ← command_destroy p m; free_all ps m
  end.

(** The manager as [create_command_manager] and the three operations keep
    it: the array has its declared size, the cursor is at least -1 and below
    the size of the history, which is within the array, and every slot of
    the history has been written. *)
Definition wf_manager (mgr : CommandManager) : Prop :=
  length (command_history mgr) = Z.to_nat MAX_COMMANDS ∧
  -1 <= current_index mgr ∧
  current_index mgr + 1 <= history_size mgr ∧
  history_size mgr <= MAX_COMMANDS ∧
  ∀ j, 0 <= j < history_size mgr →
       ∃ p, array_get (command_history mgr) j = Some (Some p).

(** The editor of [main] in a state of the demo. *)
Definition demo_editor_in (s : CommandManager * Mem) : TextEditor :=
  default (mkEditor [] 0 []) (editors s.2 !! demo_editor demo).

(** A [char] array of [n] zeroed bytes into which [strcpy] has copied [s]. *)
Definition zeroed_with (n : nat) (s : string) : list ascii :=
  list_ascii_of_string s ++ replicate (n - String.length s) NUL.

End Command.

Module SimpleCommandProofs.
Import SimpleCommand.

(** ** Basic facts *)

Lemma show_light_status_spec p l m :
  lights m !! p = Some l →
  show_light_status p m = Some (printf (status_line l) m).
Proof.
  intros Hl. unfold show_light_status, status_line. rewrite Hl. simpl.
  by destruct (decide (is_on l ≠ 0)).
Qed.

(** Each effect function looks its command and its light up, stores the
    light and prints two lines; the six facts below are proved the same way. *)
Ltac effect_spec f :=
  let Hc := fresh "Hc" in
  let Hl := fresh "Hl" in
  intros Hc Hl; unfold f; rewrite Hc; simpl; rewrite Hl; simpl;
  erewrite show_light_status_spec by (simpl; apply lookup_insert_eq);
  unfold printf; simpl; rewrite ?insert_insert_eq, <- app_assoc; done.

Lemma turn_on_execute_spec self n lp l m :
  commands m !! self = Some (TurnOnCommand n lp) →
  lights m !! lp = Some l →
  turn_on_execute self m =
    Some (mkMem (<[lp := mkLight 1 (brightness l)]> (lights m)) (commands m)
            (stdout m ++ ["🔘 Turned light ON" +:+ LF]
                      ++ [status_line (mkLight 1 (brightness l))])).
Proof. effect_spec turn_on_execute. Qed.

Lemma turn_on_undo_spec self n lp l m :
  commands m !! self = Some (TurnOnCommand n lp) →
  lights m !! lp = Some l →
  turn_on_undo self m =
    Some (mkMem (<[lp := mkLight 0 (brightness l)]> (lights m)) (commands m)
            (stdout m ++ ["↩️ Undoing: Turned light OFF" +:+ LF]
                      ++ [status_line (mkLight 0 (brightness l))])).
Proof. effect_spec turn_on_undo. Qed.

Lemma turn_off_execute_spec self n lp l m :
  commands m !! self = Some (TurnOffCommand n lp) →
  lights m !! lp = Some l →
  turn_off_execute self m =
    Some (mkMem (<[lp := mkLight 0 (brightness l)]> (lights m)) (commands m)
            (stdout m ++ ["🔘 Turned light OFF" +:+ LF]
                      ++ [status_line (mkLight 0 (brightness l))])).
Proof. effect_spec turn_off_execute. Qed.

Lemma turn_off_undo_spec self n lp l m :
  commands m !! self = Some (TurnOffCommand n lp) →
  lights m !! lp = Some l →
  turn_off_undo self m =
    Some (mkMem (<[lp := mkLight 1 (brightness l)]> (lights m)) (commands m)
            (stdout m ++ ["↩️ Undoing: Turned light ON" +:+ LF]
                      ++ [status_line (mkLight 1 (brightness l))])).
Proof. effect_spec turn_off_undo. Qed.

Lemma brightness_execute_spec self n lp nb ob l m :
  commands m !! self = Some (BrightnessCommand n lp nb ob) →
  lights m !! lp = Some l →
  brightness_execute self m =
    Some (mkMem (<[lp := mkLight 1 nb]> (lights m))
            (<[self := BrightnessCommand n lp nb (brightness l)]> (commands m))
            (stdout m ++ ["🔆 Set brightness to " +:+ fmt_d nb +:+ "%" +:+ LF]
                      ++ [status_line (mkLight 1 nb)])).
Proof. effect_spec brightness_execute. Qed.

Lemma brightness_undo_spec self n lp nb ob l m :
  commands m !! self = Some (BrightnessCommand n lp nb ob) →
  lights m !! lp = Some l →
  brightness_undo self m =
    Some (mkMem (<[lp := mkLight (is_on l) ob]> (lights m)) (commands m)
            (stdout m ++ ["↩️ Undoing: Restored brightness to " +:+ fmt_d ob +:+ "%" +:+ LF]
                      ++ [status_line (mkLight (is_on l) ob)])).
Proof. effect_spec brightness_undo. Qed.

(** The call [command->execute(command)], for any command object. *)
Lemma execute_spec p c l m :
  commands m !! p = Some c →
  lights m !! light c = Some l →
  ∃ out, execute c p m =
    Some (mkMem (<[light c := forward_effect c l]> (lights m))
                (<[p := saved c l]> (commands m)) (stdout m ++ out)).
Proof.
  intros Hc Hl. destruct c as [n lp|n lp|n lp nb ob]; simpl in *.
  - erewrite turn_on_execute_spec by done. rewrite (insert_id (commands m)) by done. eauto.
  - erewrite turn_off_execute_spec by done. rewrite (insert_id (commands m)) by done. eauto.
  - erewrite brightness_execute_spec by done. eauto.
Qed.

(** The call [command->undo(command)], for any command object. *)
Lemma undo_spec p c l m :
  commands m !! p = Some c →
  lights m !! light c = Some l →
  ∃ out, undo c p m =
    Some (mkMem (<[light c := inverse_effect c l]> (lights m)) (commands m) (stdout m ++ out)).
Proof.
  intros Hc Hl. destruct c as [n lp|n lp|n lp nb ob]; simpl in *.
  - erewrite turn_on_undo_spec by done. eauto.
  - erewrite turn_off_undo_spec by done. eauto.
  - erewrite brightness_undo_spec by done. eauto.
Qed.

Lemma light_saved c l : light (saved c l) = light c.
Proof. by destruct c. Qed.

Lemma same_objects_refl m : same_objects m m.
Proof. by split. Qed.

Lemma same_objects_trans m1 m2 m3 :
  same_objects m1 m2 → same_objects m2 m3 → same_objects m1 m3.
Proof. intros [H1 H2] [H3 H4]. split; [congruence|]. intros p. by rewrite H4. Qed.

Lemma same_objects_printf s m : same_objects m (printf s m).
Proof. by split. Qed.

Lemma same_objects_wf m m' : same_objects m m' → wf_mem m → wf_mem m'.
Proof.
  intros [Hd Hc] Hwf p c Hp. specialize (Hc p). rewrite Hp in Hc. simpl in Hc.
  destruct (commands m !! p) as [c0|] eqn:Hp0; simplify_eq/=.
  apply elem_of_dom. rewrite Hd. apply elem_of_dom.
  replace (light c) with (light c0) by done. eauto.
Qed.

Lemma same_objects_command m m' p c :
  same_objects m m' → commands m !! p = Some c →
  ∃ c', commands m' !! p = Some c'.
Proof.
  intros [_ Hc] Hp. specialize (Hc p). rewrite Hp in Hc.
  destruct (commands m' !! p); simplify_eq/=; eauto.
Qed.

Lemma execute_same_objects p c m m' :
  wf_mem m → commands m !! p = Some c → execute c p m = Some m' → same_objects m m'.
Proof.
  intros Hwf Hc He. destruct (Hwf _ _ Hc) as [l Hl].
  destruct (execute_spec p c l m Hc Hl) as [out Hs]. rewrite Hs in He. simplify_eq.
  split; simpl.
  - apply dom_insert_lookup_L; eauto.
  - intros q. destruct (decide (p = q)) as [->|].
    + rewrite lookup_insert_eq, Hc. simpl. by rewrite light_saved.
    + by rewrite lookup_insert_ne.
Qed.

Lemma undo_same_objects p c m m' :
  wf_mem m → commands m !! p = Some c → undo c p m = Some m' → same_objects m m'.
Proof.
  intros Hwf Hc He. destruct (Hwf _ _ Hc) as [l Hl].
  destruct (undo_spec p c l m Hc Hl) as [out Hs]. rewrite Hs in He. simplify_eq.
  split; simpl; [|done].
  apply dom_insert_lookup_L; eauto.
Qed.

Lemma execute_defined p c m :
  wf_mem m → commands m !! p = Some c → is_Some (execute c p m).
Proof.
  intros Hwf Hc. destruct (Hwf _ _ Hc) as [l Hl].
  destruct (execute_spec p c l m Hc Hl) as [out Hs]. eauto.
Qed.

Lemma undo_defined p c m :
  wf_mem m → commands m !! p = Some c → is_Some (undo c p m).
Proof.
  intros Hwf Hc. destruct (Hwf _ _ Hc) as [l Hl].
  destruct (undo_spec p c l m Hc Hl) as [out Hs]. eauto.
Qed.

(** ** The invoker's two operations on well-formed inputs *)

Lemma array_set_Some {A} (a : list A) i v :
  0 <= i < Z.of_nat (length a) → array_set a i v = Some (<[Z.to_nat i := v]> a).
Proof. intros H. unfold array_set. by rewrite decide_True. Qed.

Lemma array_get_lookup {A} (a : list A) i x :
  0 <= i → a !! Z.to_nat i = Some x → array_get a i = Some x.
Proof.
  intros Hi Hx. unfold array_get. rewrite decide_True; [done|].
  apply lookup_lt_Some in Hx. lia.
Qed.

Lemma press_button_room r p c m m' :
  wf_remote r → 0 <= history_count r < MAX_HISTORY →
  commands m !! p = Some c →
  execute c p (printf (pressing_line c) m) = Some m' →
  press_button r p m =
    Some (mkRemote (<[Z.to_nat (history_count r) := Some p]> (history r))
                   (history_count r + 1), m').
Proof.
  intros Hr Hn Hc He. unfold press_button. rewrite Hc. simpl.
  fold (pressing_line c). rewrite He. simpl.
  rewrite decide_True by lia. rewrite array_set_Some; [done|].
  rewrite Hr. lia.
Qed.

Lemma press_button_full r p c m m' :
  MAX_HISTORY <= history_count r →
  commands m !! p = Some c →
  execute c p (printf (pressing_line c) m) = Some m' →
  press_button r p m = Some (r, m').
Proof.
  intros Hn Hc He. unfold press_button. rewrite Hc. simpl.
  fold (pressing_line c). rewrite He. simpl. by rewrite decide_False by lia.
Qed.

Lemma press_undo_step r p c m m' :
  0 < history_count r →
  history r !! Z.to_nat (history_count r - 1) = Some (Some p) →
  commands m !! p = Some c →
  undo c p (printf undo_line m) = Some m' →
  press_undo r m = Some (mkRemote (history r) (history_count r - 1), m').
Proof.
  intros Hn Hh Hc Hu. unfold press_undo. rewrite decide_True by lia.
  rewrite (array_get_lookup _ _ (Some p)) by (done || lia). simpl.
  fold undo_line. rewrite Hc. simpl. by rewrite Hu.
Qed.

Lemma press_undo_empty r m :
  history_count r <= 0 →
  press_undo r m = Some (r, printf nothing_to_undo_line m).
Proof. intros Hn. unfold press_undo. by rewrite decide_False by lia. Qed.

(** Inversion of the two operations: whatever they return, the count moved
    by at most one and stayed within the array. *)
Lemma press_button_inv r p m r' m' :
  press_button r p m = Some (r', m') →
  ∃ c m1, commands m !! p = Some c ∧
    execute c p (printf (pressing_line c) m) = Some m1 ∧ m' = m1 ∧
    ((history_count r < MAX_HISTORY ∧
      0 <= history_count r < Z.of_nat (length (history r)) ∧
      r' = mkRemote (<[Z.to_nat (history_count r) := Some p]> (history r))
                    (history_count r + 1)) ∨
     (MAX_HISTORY <= history_count r ∧ r' = r)).
Proof.
  unfold press_button. intros H.
  destruct (commands m !! p) as [c|] eqn:Hc; simplify_eq/=.
  fold (pressing_line c) in H.
  destruct (execute c p (printf (pressing_line c) m)) as [m1|] eqn:He; simplify_eq/=.
  exists c, m1. destruct (decide (history_count r < MAX_HISTORY)).
  - unfold array_set in H. case_decide; simplify_eq/=. split_and!; eauto.
  - simplify_eq. split_and!; eauto. right. split; [lia|done].
Qed.

Lemma press_undo_inv r m r' m' :
  press_undo r m = Some (r', m') →
  (0 < history_count r ∧ history_count r - 1 < Z.of_nat (length (history r)) ∧
   ∃ p c, history r !! Z.to_nat (history_count r - 1) = Some (Some p) ∧
     commands m !! p = Some c ∧
     undo c p (printf undo_line m) = Some m' ∧
     r' = mkRemote (history r) (history_count r - 1)) ∨
  (history_count r <= 0 ∧ r' = r ∧ m' = printf nothing_to_undo_line m).
Proof.
  unfold press_undo. intros H. destruct (decide (history_count r > 0)).
  - left. unfold array_get in H. case_decide; simplify_eq/=.
    destruct (history r !! Z.to_nat (history_count r - 1)) as [[p|]|] eqn:Hp; simplify_eq/=.
    fold undo_line in H.
    destruct (commands m !! p) as [c|] eqn:Hc; simplify_eq/=.
    destruct (undo c p (printf undo_line m)) as [m1|] eqn:Hu; simplify_eq/=.
    split_and!; [lia|lia|]. eauto 10.
  - right. simplify_eq. split_and!; [lia|done|done].
Qed.

(** ** Invariants of a run *)

Lemma step_bounds op r m r' m' :
  wf_remote r → 0 <= history_count r <= MAX_HISTORY →
  step op (r, m) = Some (r', m') →
  wf_remote r' ∧ 0 <= history_count r' <= MAX_HISTORY.
Proof.
  intros Hr Hn Hs. destruct op as [p|]; simpl in Hs.
  - apply press_button_inv in Hs as (c & m1 & _ & _ & _ & [(? & ? & ->)|(? & ->)]); simpl.
    + split; [|lia]. unfold wf_remote. simpl. by rewrite length_insert.
    + done.
  - apply press_undo_inv in Hs as [(? & ? & p & c & _ & _ & _ & ->)|(? & -> & _)]; simpl.
    + split; [done|lia].
    + done.
Qed.

Lemma run_bounds ops r m r' m' :
  wf_remote r → 0 <= history_count r <= MAX_HISTORY →
  run ops (r, m) = Some (r', m') →
  wf_remote r' ∧ 0 <= history_count r' <= MAX_HISTORY.
Proof.
  revert r m. induction ops as [|op ops IH]; intros r m Hr Hn Hrun; simpl in Hrun.
  - by simplify_eq.
  - destruct (step op (r, m)) as [[r1 m1]|] eqn:Hs; simplify_eq/=.
    destruct (step_bounds _ _ _ _ _ Hr Hn Hs). eauto.
Qed.

Lemma run_app ops rest s : run (ops ++ rest) s = run ops s ≫= run rest.
Proof.
  revert s. induction ops as [|op ops IH]; intros s; simpl; [done|].
  destruct (step op s) as [s1|]; simpl; [apply IH|done].
Qed.

Lemma create_remote_wf : wf_remote create_remote.
Proof. reflexivity. Qed.

(** A run is defined as soon as every button pressed is a command object of
    the memory. *)

Lemma op_ok_same_objects m m' op : same_objects m m' → op_ok m op → op_ok m' op.
Proof.
  destruct op as [p|]; [|done]. simpl. intros Hs [c Hc].
  destruct (same_objects_command _ _ _ _ Hs Hc); eauto.
Qed.

Lemma recorded_ok_same_objects r m m' :
  same_objects m m' → recorded_ok r m → recorded_ok r m'.
Proof.
  intros Hs Hok i Hi. destruct (Hok i Hi) as (p & Hp & [c Hc]).
  destruct (same_objects_command _ _ _ _ Hs Hc); eauto.
Qed.

Lemma step_defined op r m :
  wf_remote r → 0 <= history_count r <= MAX_HISTORY →
  wf_mem m → recorded_ok r m → op_ok m op →
  ∃ r' m', step op (r, m) = Some (r', m') ∧
    wf_mem m' ∧ recorded_ok r' m' ∧ same_objects m m'.
Proof.
  intros Hr Hn Hwf Hok Hop. destruct op as [p|]; simpl in *.
  - destruct Hop as [c Hc].
    assert (Hwf1 : wf_mem (printf (pressing_line c) m)) by done.
    destruct (execute_defined p c _ Hwf1 Hc) as [m1 He].
    pose proof (execute_same_objects _ _ _ _ Hwf1 Hc He) as Hso.
    assert (same_objects m m1) as Hso' by done.
    destruct (decide (history_count r < MAX_HISTORY)).
    + rewrite (press_button_room r p c m m1) by (done || lia).
      eexists _, _. split_and!; eauto using same_objects_wf.
      intros i Hi. simpl in *.
      destruct (decide (i = Z.to_nat (history_count r))) as [->|].
      * rewrite list_lookup_insert_eq by (rewrite Hr; lia).
        destruct (same_objects_command _ _ _ _ Hso' Hc); eauto.
      * rewrite list_lookup_insert_ne by done.
        apply (recorded_ok_same_objects r m m1); [done|done|lia].
    + rewrite (press_button_full r p c m m1) by (done || lia).
      eexists _, _. split_and!; eauto using same_objects_wf, recorded_ok_same_objects.
  - destruct (decide (0 < history_count r)).
    + destruct (Hok (Z.to_nat (history_count r - 1))) as (p & Hp & [c Hc]); [lia|].
      assert (Hwf1 : wf_mem (printf undo_line m)) by done.
      destruct (undo_defined p c _ Hwf1 Hc) as [m1 Hu].
      pose proof (undo_same_objects _ _ _ _ Hwf1 Hc Hu) as Hso.
      assert (same_objects m m1) as Hso' by done.
      rewrite (press_undo_step r p c m m1) by done.
      eexists _, _. split_and!; eauto using same_objects_wf.
      intros i Hi. simpl in *.
      apply (recorded_ok_same_objects r m m1); [done|done|lia].
    + rewrite press_undo_empty by lia.
      eexists _, _. split_and!; eauto using same_objects_printf.
Qed.

Lemma run_defined ops r m :
  wf_remote r → 0 <= history_count r <= MAX_HISTORY →
  wf_mem m → recorded_ok r m → Forall (op_ok m) ops →
  is_Some (run ops (r, m)).
Proof.
  revert r m. induction ops as [|op ops IH]; intros r m Hr Hn Hwf Hok Hops; simpl.
  - eauto.
  - apply Forall_cons in Hops as [Hop Hops].
    destruct (step_defined op r m) as (r1 & m1 & Hs & Hwf1 & Hok1 & Hso); try done.
    rewrite Hs. simpl. destruct (step_bounds _ _ _ _ _ Hr Hn Hs).
    apply IH; try done.
    eapply Forall_impl; [exact Hops|]. intros op'. by apply op_ok_same_objects.
Qed.

(** ** The recorded history under the two operations *)

Lemma recorded_push r p :
  wf_remote r → 0 <= history_count r < MAX_HISTORY →
  recorded (mkRemote (<[Z.to_nat (history_count r) := Some p]> (history r))
                     (history_count r + 1))
  = recorded r ++ [Some p].
Proof.
  intros Hr Hn. unfold recorded. simpl.
  replace (Z.to_nat (history_count r + 1)) with (S (Z.to_nat (history_count r))) by lia.
  erewrite take_S_r by (apply list_lookup_insert_eq; rewrite Hr; lia).
  by rewrite take_insert_ge by lia.
Qed.

Lemma tip_push r p :
  wf_remote r → 0 <= history_count r < MAX_HISTORY →
  tip (mkRemote (<[Z.to_nat (history_count r) := Some p]> (history r))
                (history_count r + 1)) = Some p.
Proof.
  intros Hr Hn. unfold tip. simpl.
  rewrite (array_get_lookup _ _ (Some p)); [done|lia|].
  replace (history_count r + 1 - 1) with (history_count r) by lia.
  apply list_lookup_insert_eq. rewrite Hr. lia.
Qed.

Lemma take_le_eq {A} (l l' : list A) (k n : nat) :
  (k <= n)%nat → take n l = take n l' → take k l = take k l'.
Proof.
  intros Hk H. rewrite <- (Nat.min_l k n Hk), <- !take_take. by rewrite H.
Qed.

(** Slots at and above [history_count] are dead: two remote controls with
    the same recorded history behave alike, whatever their other slots
    hold. *)
Lemma step_recorded_only op r r' m :
  wf_remote r → wf_remote r' →
  history_count r = history_count r' → recorded r = recorded r' →
  observable <$> step op (r, m) = observable <$> step op (r', m).
Proof.
  intros Hr Hr' Hn Hrec. destruct op as [p|]; simpl.
  - unfold press_button. destruct (commands m !! p) as [c|]; [simpl|done].
    destruct (execute c p _) as [m1|]; [simpl|done]. rewrite <- Hn.
    destruct (decide (history_count r < MAX_HISTORY)) as [Hlt|]; [|by unfold observable; simpl; rewrite Hrec, Hn].
    unfold array_set. rewrite Hr, Hr'.
    destruct (decide (0 <= history_count r < Z.of_nat (Z.to_nat MAX_HISTORY))) as [Hb|]; [simpl|done].
    unfold observable. simpl.
    rewrite (recorded_push r p) by (done || lia).
    pose proof (recorded_push r' p Hr') as Hpush. rewrite <- Hn in Hpush.
    rewrite Hpush by lia. by rewrite Hrec.
  - unfold press_undo. rewrite <- Hn.
    destruct (decide (history_count r > 0)) as [Hpos|]; [|by unfold observable; simpl; rewrite Hrec, Hn].
    assert (Hget : array_get (history r) (history_count r - 1)
                   = array_get (history r') (history_count r - 1)).
    { unfold array_get. rewrite Hr, Hr'. case_decide; [|done].
      rewrite <- (lookup_take_lt (history r) (Z.to_nat (history_count r))) by lia.
      rewrite <- (lookup_take_lt (history r') (Z.to_nat (history_count r))) by lia.
      unfold recorded in Hrec. rewrite <- Hn in Hrec. by rewrite Hrec. }
    rewrite <- Hget.
    destruct (array_get (history r) (history_count r - 1) ≫= id) as [p|]; [simpl|done].
    destruct (commands _ !! p) as [c|]; [simpl|done].
    destruct (undo c p _) as [m1|]; [simpl|done].
    unfold observable, recorded in *. simpl. rewrite <- Hn in Hrec. do 3 f_equal.
    apply (take_le_eq _ _ _ (Z.to_nat (history_count r))); [lia|done].
Qed.

Lemma step_wf op r m r' m' :
  wf_remote r → step op (r, m) = Some (r', m') → wf_remote r'.
Proof.
  intros Hr Hs. destruct op as [p|]; simpl in Hs.
  - apply press_button_inv in Hs as (c & m1 & _ & _ & _ & [(? & ? & ->)|(? & ->)]); [|done].
    unfold wf_remote. simpl. by rewrite length_insert.
  - by apply press_undo_inv in Hs as [(? & ? & p & c & _ & _ & _ & ->)|(? & -> & _)].
Qed.

Lemma run_recorded_only ops r r' m :
  wf_remote r → wf_remote r' →
  history_count r = history_count r' → recorded r = recorded r' →
  observable <$> run ops (r, m) = observable <$> run ops (r', m).
Proof.
  revert r r' m. induction ops as [|op ops IH]; intros r r' m Hr Hr' Hn Hrec; simpl.
  - unfold observable. simpl. by rewrite Hn, Hrec.
  - pose proof (step_recorded_only op r r' m Hr Hr' Hn Hrec) as Hs.
    destruct (step op (r, m)) as [[r1 m1]|] eqn:Hs1;
      destruct (step op (r', m)) as [[r1' m1']|] eqn:Hs2; simplify_eq/=; [|done].
    unfold observable in Hs. simplify_eq/=.
    apply IH; eauto using step_wf.
Qed.

(** ** Claims about simple_command.c *)

(** C1 — Truncation on branch.  With the history [C1, C2, C3] recorded and
    the cursor at C3, two calls of [press_undo] bring [history_count] from 3
    to 1 (cursor at C1), and [press_button] of C4 then stores C4 at index 1
    and sets [history_count] to 2: the recorded history is exactly [C1, C4]
    and its tip is C4.  C2 and C3 are out of reach from then on: the remote
    control has no redo operation, C2 is overwritten in the array, and every
    later sequence of operations behaves as on a remote control whose array
    holds C1 and C4 only. *)
Theorem truncation_on_branch r m C1 C2 C3 C4 :
  wf_remote r → wf_mem m →
  history_count r = 3 →
  recorded r = [Some C1; Some C2; Some C3] →
  is_Some (commands m !! C2) → is_Some (commands m !! C3) → is_Some (commands m !! C4) →
  ∃ r1 m1 r2 m2 r3 m3,
    press_undo r m = Some (r1, m1) ∧
    press_undo r1 m1 = Some (r2, m2) ∧
    history_count r2 = 1 ∧ tip r2 = Some C1 ∧
    press_button r2 C4 m2 = Some (r3, m3) ∧
    history_count r3 = 2 ∧
    recorded r3 = [Some C1; Some C4] ∧
    tip r3 = Some C4 ∧
    history r3 !! 1%nat = Some (Some C4) ∧
    ∀ ops, observable <$> run ops (r3, m3)
           = observable <$> run ops (mkRemote ([Some C1; Some C4] ++ replicate 8 None) 2, m3).
Proof.
  intros Hr Hwf Hn Hrec [c2 Hc2] [c3 Hc3] [c4 Hc4].
  destruct r as [h n]. unfold recorded, wf_remote in *. simpl in *. subst n.
  destruct h as [|x0 [|x1 [|x2 h]]]; simplify_eq/=.
  (* undo C3 *)
  assert (Hwf0 : wf_mem (printf undo_line m)) by done.
  destruct (undo_defined C3 c3 _ Hwf0 Hc3) as [m1 Hu1].
  pose proof (undo_same_objects _ _ _ _ Hwf0 Hc3 Hu1) as Hso1.
  assert (Hwf1 : wf_mem (printf undo_line m1)) by (by apply (same_objects_wf _ _ Hso1)).
  (* undo C2 *)
  destruct (same_objects_command _ _ _ _ Hso1 Hc2) as [c2' Hc2'].
  destruct (undo_defined C2 c2' (printf undo_line m1) Hwf1 Hc2') as [m2 Hu2].
  pose proof (undo_same_objects _ _ _ _ Hwf1 Hc2' Hu2) as Hso2.
  (* execute C4 *)
  destruct (same_objects_command _ _ _ _ (same_objects_trans _ _ _ Hso1 Hso2) Hc4) as [c4' Hc4'].
  assert (Hwf2 : wf_mem (printf (pressing_line c4') m2)) by (by apply (same_objects_wf _ _ Hso2)).
  destruct (execute_defined C4 c4' _ Hwf2 Hc4') as [m3 He3].
  eexists _, m1, _, m2, _, m3. split_and!.
  - by apply (press_undo_step _ C3 c3).
  - by apply (press_undo_step _ C2 c2').
  - done.
  - done.
  - by apply (press_button_room _ C4 c4').
  - done.
  - reflexivity.
  - by apply (tip_push (mkRemote (Some C1 :: Some C2 :: Some C3 :: h) (3 - 1 - 1))).
  - done.
  - intros ops. by apply run_recorded_only.
Qed.

Lemma truncation_on_branch_witness :
  ∃ r1 m1 r2 m2 r3 m3,
    press_undo demo_three.1 demo_three.2 = Some (r1, m1) ∧
    press_undo r1 m1 = Some (r2, m2) ∧
    history_count r2 = 1 ∧ tip r2 = Some (turn_on demo) ∧
    press_button r2 (turn_off demo) m2 = Some (r3, m3) ∧
    history_count r3 = 2 ∧
    recorded r3 = [Some (turn_on demo); Some (turn_off demo)] ∧
    tip r3 = Some (turn_off demo) ∧
    history r3 !! 1%nat = Some (Some (turn_off demo)) ∧
    ∀ ops, observable <$> run ops (r3, m3)
           = observable <$> run ops
               (mkRemote ([Some (turn_on demo); Some (turn_off demo)] ++ replicate 8 None) 2, m3).
Proof.
  apply (truncation_on_branch demo_three.1 demo_three.2
           (turn_on demo) (bright demo) (dim demo) (turn_off demo)).
  - by_evaluation.
  - refine (bool_decide_unpack _ _). vm_compute. exact I.
  - by_evaluation.
  - by_evaluation.
  - vm_compute. eauto.
  - vm_compute. eauto.
  - vm_compute. eauto.
Defined.

(** C6 — Cursor bounds.  The remote control starts with [history_count] 0.
    For every sequence of [press_button] and [press_undo] calls on it, where
    the buttons pressed are command objects of a memory in which every
    command points to an allocated light, the whole sequence runs, and after
    every operation of it (after every prefix [ops]) [history_count] is
    within [0, MAX_HISTORY]; the cursor, which is [history_count - 1], is
    within [-1, MAX_HISTORY - 1]. *)
Theorem cursor_bounds ops rest m :
  wf_mem m → Forall (op_ok m) (ops ++ rest) →
  history_count create_remote = 0 ∧
  ∃ r m', run ops (create_remote, m) = Some (r, m') ∧
    is_Some (run (ops ++ rest) (create_remote, m)) ∧
    0 <= history_count r <= MAX_HISTORY ∧
    history_count r = cursor r + 1 ∧
    -1 <= cursor r <= MAX_HISTORY - 1 ∧
    (length (recorded r) <= Z.to_nat MAX_HISTORY)%nat.
Proof.
  intros Hwf Hops. split; [done|].
  assert (Hok : recorded_ok create_remote m) by (intros i Hi; simpl in Hi; lia).
  assert (Hn0 : 0 <= history_count create_remote <= MAX_HISTORY) by done.
  pose proof (run_defined (ops ++ rest) create_remote m create_remote_wf Hn0 Hwf Hok Hops)
    as Hall.
  pose proof Hall as [s Hrun]. rewrite run_app in Hrun.
  destruct (run ops (create_remote, m)) as [[r m']|] eqn:Hpre; [|done].
  exists r, m'. split; [done|]. split; [exact Hall|].
  destruct (run_bounds ops create_remote m r m' create_remote_wf Hn0 Hpre) as [Hr Hn].
  unfold cursor, recorded. rewrite length_take, Hr. split_and!; try done; lia.
Qed.

Lemma cursor_bounds_witness :
  history_count create_remote = 0 ∧
  ∃ r m', run demo_fill (create_remote, demo_mem demo) = Some (r, m') ∧
    is_Some (run (demo_fill ++ [PressButton (dim demo); PressUndo])
               (create_remote, demo_mem demo)) ∧
    0 <= history_count r <= MAX_HISTORY ∧
    history_count r = cursor r + 1 ∧
    -1 <= cursor r <= MAX_HISTORY - 1 ∧
    (length (recorded r) <= Z.to_nat MAX_HISTORY)%nat.
Proof.
  apply (cursor_bounds demo_fill [PressButton (dim demo); PressUndo] (demo_mem demo)).
  - refine (bool_decide_unpack _ _). by_evaluation.
  - refine (bool_decide_unpack _ _). by_evaluation.
Defined.

(** C10 — Brightness side effect and partial inverse.  [brightness_execute]
    saves the prior brightness in [old_brightness], sets the brightness and
    also sets [is_on] to 1; [brightness_undo] writes [old_brightness] back
    and leaves [is_on] as it finds it; so executing and then undoing a
    brightness command on a light that was off leaves the light on. *)
Theorem brightness_partial_inverse self n lp nb ob l m :
  commands m !! self = Some (BrightnessCommand n lp nb ob) →
  lights m !! lp = Some l →
  (∃ m1, brightness_execute self m = Some m1 ∧
     lights m1 = <[lp := mkLight 1 nb]> (lights m) ∧
     commands m1 = <[self := BrightnessCommand n lp nb (brightness l)]> (commands m)) ∧
  (∃ m1, brightness_undo self m = Some m1 ∧
     lights m1 = <[lp := mkLight (is_on l) ob]> (lights m) ∧
     commands m1 = commands m) ∧
  (is_on l = 0 →
   ∃ m2, brightness_execute self m ≫= brightness_undo self = Some m2 ∧
     lights m2 !! lp = Some (mkLight 1 (brightness l))).
Proof.
  intros Hc Hl. split_and!.
  - erewrite brightness_execute_spec by done. eauto.
  - erewrite brightness_undo_spec by done. eauto.
  - intros _. erewrite brightness_execute_spec by done. simpl.
    erewrite brightness_undo_spec by (simpl; apply lookup_insert_eq).
    eexists. split; [done|]. simpl. apply lookup_insert_eq.
Qed.

Lemma brightness_partial_inverse_witness :
  let m := demo_mem demo in
  (∃ m1, brightness_execute (dim demo) m = Some m1 ∧
     lights m1 = <[bedroom_light demo := mkLight 1 25]> (lights m) ∧
     commands m1 =
       <[dim demo := BrightnessCommand "Set Brightness 25%" (bedroom_light demo) 25 50]>
         (commands m)) ∧
  (∃ m1, brightness_undo (dim demo) m = Some m1 ∧
     lights m1 = <[bedroom_light demo := mkLight 0 0]> (lights m) ∧
     commands m1 = commands m) ∧
  (∃ m2, brightness_execute (dim demo) m ≫= brightness_undo (dim demo) = Some m2 ∧
     lights m2 !! bedroom_light demo = Some (mkLight 1 50)).
Proof.
  intros m.
  assert (H1 : commands m !! dim demo
               = Some (BrightnessCommand "Set Brightness 25%" (bedroom_light demo) 25 0))
    by by_evaluation.
  assert (H2 : lights m !! bedroom_light demo = Some (mkLight 0 50))
    by by_evaluation.
  destruct (brightness_partial_inverse _ _ _ _ _ _ _ H1 H2) as (A & B & C).
  split_and!; [exact A|exact B|exact (C eq_refl)].
Defined.

(** C9, where the code departs from it — the press that a full history
    drops can be undone all the same, when the command object pressed is the
    one recorded at the tip.  With [main]'s objects and a command that sets
    the brightness to 10, the history is full with [bright] at its tip; a
    press of the 10% command and then a press of [bright] are both dropped;
    the second overwrites the [old_brightness] of [bright] with 10, and the
    next [press_undo] takes the light from 90% back to 10%, its state just
    before the dropped press of [bright]. *)
Lemma silent_drop_counterexample :
  let ten := demo_ten.1 in
  let lp := bedroom_light demo in
  ∃ s1 s2 s3,
    run demo_fill (create_remote, demo_ten.2) = Some demo_ten_full ∧
    history_count demo_ten_full.1 = MAX_HISTORY ∧
    tip demo_ten_full.1 = Some (bright demo) ∧
    press_button demo_ten_full.1 ten demo_ten_full.2 = Some s1 ∧
    lights s1.2 !! lp = Some (mkLight 1 10) ∧
    history_count s1.1 = MAX_HISTORY ∧
    press_button s1.1 (bright demo) s1.2 = Some s2 ∧
    s2.1 = demo_ten_full.1 ∧
    lights s2.2 !! lp = Some (mkLight 1 90) ∧
    press_undo s2.1 s2.2 = Some s3 ∧
    lights s3.2 = lights s1.2 ∧
    lights s3.2 !! lp = Some (mkLight 1 10).
Proof. intros ten lp. eexists _, _, _. split_and!; by_evaluation. Qed.

(** C9 as amended — Silent drop when full.  With
    [history_count == MAX_HISTORY], [press_button] runs the command's
    execute function once and returns with the remote control exactly as it
    was: the command is not stored, [history_count] is unchanged and no
    entry is evicted.  The press leaves no entry of its own: the next
    [press_undo] calls the undo function of the command object that was at
    the tip before the press, and removes that entry.  When that object is
    the command just pressed, and the light had the [is_on] that the
    command's undo leaves, this undo brings every light back to its state
    before the dropped press. *)
Theorem silent_drop_when_full r p c l m :
  history_count r = MAX_HISTORY →
  commands m !! p = Some c →
  lights m !! light c = Some l →
  ∃ m', execute c p (printf (pressing_line c) m) = Some m' ∧
        lights m' = <[light c := forward_effect c l]> (lights m) ∧
        press_button r p m = Some (r, m') ∧
        (∀ q cq lq,
           tip r = Some q → commands m' !! q = Some cq →
           lights m' !! light cq = Some lq →
           ∃ m2, undo cq q (printf undo_line m') = Some m2 ∧
                 press_undo r m' = Some (mkRemote (history r) (history_count r - 1), m2) ∧
                 lights m2 = <[light cq := inverse_effect cq lq]> (lights m')) ∧
        (tip r = Some p → is_on l = is_on_after_undo c →
           ∃ m2, press_undo r m' = Some (mkRemote (history r) (history_count r - 1), m2) ∧
                 lights m2 = lights m).
Proof.
  intros Hn Hc Hl.
  destruct (execute_spec p c l (printf (pressing_line c) m) Hc Hl) as [out He].
  set (m1 := mkMem (<[light c := forward_effect c l]> (lights m))
                   (<[p := saved c l]> (commands m))
                   (stdout (printf (pressing_line c) m) ++ out)) in *.
  assert (Hnext : ∀ q cq lq,
            tip r = Some q → commands m1 !! q = Some cq →
            lights m1 !! light cq = Some lq →
            ∃ m2, undo cq q (printf undo_line m1) = Some m2 ∧
                  press_undo r m1 = Some (mkRemote (history r) (history_count r - 1), m2) ∧
                  lights m2 = <[light cq := inverse_effect cq lq]> (lights m1)).
  { intros q cq lq Ht Hcq Hlq.
    destruct (undo_spec q cq lq (printf undo_line m1) Hcq Hlq) as [out' Hu].
    eexists. split; [exact Hu|]. split; [|done].
    unfold press_undo. rewrite decide_True by (rewrite Hn; done).
    unfold tip in Ht. rewrite Ht. simpl.
    change (commands m1 !! q) with (commands (printf undo_line m1) !! q) in Hcq.
    simpl in Hcq. rewrite Hcq. simpl.
    fold undo_line. rewrite Hu. done. }
  exists m1. split_and!; [exact He|done| |exact Hnext|].
  - apply (press_button_full r p c); [lia|done|done].
  - intros Ht Hon.
    assert (Hc1 : commands m1 !! p = Some (saved c l)) by apply lookup_insert_eq.
    assert (Hl1 : lights m1 !! light (saved c l) = Some (forward_effect c l))
      by (rewrite light_saved; apply lookup_insert_eq).
    destruct (Hnext p _ _ Ht Hc1 Hl1) as (m2 & _ & Hu & Hl2).
    exists m2. split; [exact Hu|]. rewrite Hl2, light_saved. simpl.
    rewrite insert_insert_eq. apply insert_id. rewrite Hl. f_equal.
    destruct l as [on b]. destruct c; simpl in *; by subst.
Qed.

Lemma silent_drop_when_full_witness :
  let r := demo_full.1 in
  let m := demo_full.2 in
  ∃ m' m2,
    press_button r (bright demo) m = Some (r, m') ∧
    lights m' = <[bedroom_light demo := mkLight 1 90]> (lights m) ∧
    press_undo r m' = Some (mkRemote (history r) (history_count r - 1), m2) ∧
    lights m2 = lights m.
Proof.
  intros r m.
  destruct (silent_drop_when_full r (bright demo)
              (BrightnessCommand "Set Brightness 90%" (bedroom_light demo) 90 25)
              (mkLight 1 90) m)
    as (m' & _ & Hl & Hp & _ & Hself).
  - by_evaluation.
  - by_evaluation.
  - by_evaluation.
  - destruct Hself as (m2 & Hu & Hback).
    + by_evaluation.
    + reflexivity.
    + exists m', m2. split_and!; [exact Hp|exact Hl|exact Hu|exact Hback].
Defined.

(** C4, where the code departs from it — on a full history the command that
    was pressed is not the tip afterwards: the tip is still the command
    recorded last. *)
Lemma execute_guarantee_counterexample :
  ∃ r' m',
    run demo_fill (create_remote, demo_mem demo) = Some demo_full ∧
    history_count demo_full.1 = MAX_HISTORY ∧
    press_button demo_full.1 (dim demo) demo_full.2 = Some (r', m') ∧
    tip r' = Some (bright demo) ∧
    tip r' ≠ Some (dim demo).
Proof. eexists _, _. split_and!; by_evaluation. Qed.

(** C4 as amended — Execute guarantee.  [press_button(remote, C)] runs C's
    execute function before it returns, and on return the effect is in the
    light's state; when the history is not full
    ([history_count < MAX_HISTORY]) C is appended and is the new tip, and
    when it is full the remote control is left as it was. *)
Theorem execute_guarantee r p c l m :
  wf_remote r → 0 <= history_count r →
  commands m !! p = Some c →
  lights m !! light c = Some l →
  ∃ r' m',
    press_button r p m = Some (r', m') ∧
    execute c p (printf (pressing_line c) m) = Some m' ∧
    lights m' !! light c = Some (forward_effect c l) ∧
    (history_count r < MAX_HISTORY →
       history_count r' = history_count r + 1 ∧
       recorded r' = recorded r ++ [Some p] ∧
       tip r' = Some p) ∧
    (MAX_HISTORY <= history_count r → r' = r).
Proof.
  intros Hr Hn Hc Hl.
  destruct (execute_spec p c l (printf (pressing_line c) m) Hc Hl) as [out He].
  destruct (decide (history_count r < MAX_HISTORY)) as [Hlt|Hge].
  - eexists _, _. split_and!.
    + by apply (press_button_room r p c).
    + exact He.
    + simpl. apply lookup_insert_eq.
    + intros _. split_and!; [done|by apply recorded_push|by apply tip_push].
    + lia.
  - eexists _, _. split_and!.
    + apply (press_button_full r p c); [lia|done|exact He].
    + exact He.
    + simpl. apply lookup_insert_eq.
    + lia.
    + done.
Qed.

Lemma execute_guarantee_witness :
  ∃ r' m',
    press_button demo_three.1 (turn_off demo) demo_three.2 = Some (r', m') ∧
    lights m' !! bedroom_light demo = Some (mkLight 0 25) ∧
    history_count r' = 4 ∧
    recorded r' = [Some (turn_on demo); Some (bright demo); Some (dim demo);
                   Some (turn_off demo)] ∧
    tip r' = Some (turn_off demo).
Proof.
  destruct (execute_guarantee demo_three.1 (turn_off demo)
              (TurnOffCommand "Turn Off" (bedroom_light demo)) (mkLight 1 25) demo_three.2)
    as (r' & m' & Hp & _ & Hl & Hroom & _).
  - by_evaluation.
  - by_evaluation.
  - by_evaluation.
  - by_evaluation.
  - exists r', m'. destruct Hroom as (Hn & Hrec & Htip); [by vm_compute|].
    split_and!; [exact Hp|exact Hl|exact Hn|exact Hrec|exact Htip].
Defined.

(** C3, where the code departs from it — pressing a button on a full
    history evicts nothing and shifts nothing: the array is unchanged, its
    entry 0 is still the oldest command, and the recorded history is not the
    old one without its first entry followed by the new command. *)
Lemma eviction_counterexample :
  ∃ r' m',
    run demo_fill (create_remote, demo_mem demo) = Some demo_full ∧
    history_count demo_full.1 = MAX_HISTORY ∧
    press_button demo_full.1 (dim demo) demo_full.2 = Some (r', m') ∧
    history r' = history demo_full.1 ∧
    history r' !! 0%nat = Some (Some (turn_on demo)) ∧
    recorded r' ≠ drop 1 (recorded demo_full.1) ++ [Some (dim demo)].
Proof. eexists _, _. split_and!; by_evaluation. Qed.

(** C3 as amended — No eviction at capacity.  The recorded history of a
    remote control never exceeds [MAX_HISTORY] = 10 entries, before and after
    any [press_button]; and when [press_button] is called while the history
    is full, the command's execute function runs but the command is not
    recorded: the array and [history_count] are unchanged, nothing is evicted
    and nothing is shifted. *)
Theorem no_eviction_at_capacity ops m0 r m p c l :
  run ops (create_remote, m0) = Some (r, m) →
  commands m !! p = Some c →
  lights m !! light c = Some l →
  (length (recorded r) <= Z.to_nat MAX_HISTORY)%nat ∧
  ∃ r' m',
    press_button r p m = Some (r', m') ∧
    execute c p (printf (pressing_line c) m) = Some m' ∧
    (length (recorded r') <= Z.to_nat MAX_HISTORY)%nat ∧
    history_count r' <= MAX_HISTORY ∧
    (history_count r = MAX_HISTORY →
       history r' = history r ∧ history_count r' = history_count r).
Proof.
  intros Hrun Hc Hl.
  destruct (run_bounds ops create_remote m0 r m create_remote_wf) as [Hr Hn]; [done|done|].
  destruct (execute_spec p c l (printf (pressing_line c) m) Hc Hl) as [out He].
  split; [unfold recorded; rewrite length_take, Hr; lia|].
  destruct (decide (history_count r < MAX_HISTORY)) as [Hlt|Hge].
  - eexists _, _. split_and!.
    + by apply (press_button_room r p c); [|lia|..].
    + exact He.
    + unfold recorded. simpl. rewrite length_take, length_insert, Hr. lia.
    + simpl. lia.
    + lia.
  - eexists _, _. split_and!.
    + apply (press_button_full r p c); [lia|done|exact He].
    + exact He.
    + unfold recorded. rewrite length_take, Hr. lia.
    + lia.
    + done.
Qed.

Lemma no_eviction_at_capacity_witness :
  (length (recorded demo_full.1) <= Z.to_nat MAX_HISTORY)%nat ∧
  ∃ r' m',
    press_button demo_full.1 (dim demo) demo_full.2 = Some (r', m') ∧
    (length (recorded r') <= Z.to_nat MAX_HISTORY)%nat ∧
    history r' = history demo_full.1 ∧ history_count r' = MAX_HISTORY.
Proof.
  destruct (no_eviction_at_capacity demo_fill (demo_mem demo) demo_full.1 demo_full.2
              (dim demo) (BrightnessCommand "Set Brightness 25%" 1 25 90) (mkLight 1 90))
    as (Hlen & r' & m' & Hp & _ & Hlen' & _ & Hfull).
  - by_evaluation.
  - by_evaluation.
  - by_evaluation.
  - split; [exact Hlen|]. exists r', m'.
    destruct Hfull as [Hh Hn]; [by vm_compute|].
    split_and!; [exact Hp|exact Hlen'|exact Hh|exact Hn].
Defined.

(** C2, where the code departs from it — three presses each followed by
    [press_undo] that do not bring the light back:
    - a brightness command on the light that [create_light] returns (off,
      brightness 50) leaves it on;
    - a second press of the turn-on command, on a light that is on, leaves
      it off;
    - on a full history the press is not recorded and [press_undo] reverts
      the command recorded last instead: (on, 90) becomes (off, 25). *)
Lemma undo_inverts_execute_counterexample :
  (∃ s1 s2,
     lights (demo_mem demo) !! bedroom_light demo = Some (mkLight 0 50) ∧
     press_button create_remote (dim demo) (demo_mem demo) = Some s1 ∧
     press_undo s1.1 s1.2 = Some s2 ∧
     lights s2.2 !! bedroom_light demo = Some (mkLight 1 50)) ∧
  (∃ s0 s1 s2,
     press_button create_remote (turn_on demo) (demo_mem demo) = Some s0 ∧
     lights s0.2 !! bedroom_light demo = Some (mkLight 1 50) ∧
     press_button s0.1 (turn_on demo) s0.2 = Some s1 ∧
     press_undo s1.1 s1.2 = Some s2 ∧
     lights s2.2 !! bedroom_light demo = Some (mkLight 0 50)) ∧
  (∃ s1 s2,
     run demo_fill (create_remote, demo_mem demo) = Some demo_full ∧
     history_count demo_full.1 = MAX_HISTORY ∧
     lights demo_full.2 !! bedroom_light demo = Some (mkLight 1 90) ∧
     press_button demo_full.1 (turn_off demo) demo_full.2 = Some s1 ∧
     press_undo s1.1 s1.2 = Some s2 ∧
     lights s2.2 !! bedroom_light demo = Some (mkLight 0 25)).
Proof.
  split_and!.
  - eexists _, _. split_and!; by_evaluation.
  - eexists _, _, _. split_and!; by_evaluation.
  - eexists _, _. split_and!; by_evaluation.
Qed.

(** C2 as amended — Undo inverts execute.  When the history is not full,
    [press_button] of a command followed by [press_undo] leaves every light
    in the state it had before and the recorded history as it was, provided
    the light's [is_on] before the press is the value that the command's
    undo function leaves: 0 for a turn-on command, 1 for a turn-off command
    and 1 for a brightness command. *)
Theorem undo_inverts_execute r p c S m :
  wf_remote r → 0 <= history_count r < MAX_HISTORY →
  commands m !! p = Some c →
  lights m !! light c = Some S →
  is_on S = is_on_after_undo c →
  ∃ r1 m1 r2 m2,
    press_button r p m = Some (r1, m1) ∧
    press_undo r1 m1 = Some (r2, m2) ∧
    lights m2 = lights m ∧
    lights m2 !! light c = Some S ∧
    history_count r2 = history_count r ∧
    recorded r2 = recorded r.
Proof.
  intros Hr Hn Hc Hl Hon.
  destruct (execute_spec p c S (printf (pressing_line c) m) Hc Hl) as [out He].
  set (m1 := mkMem (<[light c := forward_effect c S]> (lights m))
                   (<[p := saved c S]> (commands m))
                   (stdout (printf (pressing_line c) m) ++ out)) in *.
  assert (Hc1 : commands (printf undo_line m1) !! p = Some (saved c S))
    by (simpl; apply lookup_insert_eq).
  assert (Hl1 : lights (printf undo_line m1) !! light (saved c S) = Some (forward_effect c S))
    by (rewrite light_saved; simpl; apply lookup_insert_eq).
  destruct (undo_spec p (saved c S) _ _ Hc1 Hl1) as [out' Hu].
  assert (Hback : <[light c := inverse_effect (saved c S) (forward_effect c S)]>
                    (<[light c := forward_effect c S]> (lights m)) = lights m).
  { rewrite insert_insert_eq. apply insert_id. rewrite Hl. f_equal.
    destruct S as [on b]. destruct c; simpl in *; by subst. }
  eexists _, m1, _, _. split_and!.
  - by apply (press_button_room r p c).
  - apply (press_undo_step _ p (saved c S)); simpl; [lia| |done|exact Hu].
    replace (history_count r + 1 - 1) with (history_count r) by lia.
    apply list_lookup_insert_eq. rewrite Hr. lia.
  - simpl. rewrite light_saved. exact Hback.
  - simpl. rewrite light_saved, Hback. exact Hl.
  - simpl. lia.
  - unfold recorded. simpl.
    replace (history_count r + 1 - 1) with (history_count r) by lia.
    by rewrite take_insert_ge by lia.
Qed.

Lemma undo_inverts_execute_witness :
  ∃ r1 m1 r2 m2,
    press_button demo_three.1 (turn_off demo) demo_three.2 = Some (r1, m1) ∧
    press_undo r1 m1 = Some (r2, m2) ∧
    lights m2 = lights demo_three.2 ∧
    lights m2 !! bedroom_light demo = Some (mkLight 1 25) ∧
    history_count r2 = 3 ∧
    recorded r2 = recorded demo_three.1.
Proof.
  apply (undo_inverts_execute demo_three.1 (turn_off demo)
           (TurnOffCommand "Turn Off" (bedroom_light demo)) (mkLight 1 25) demo_three.2).
  - by_evaluation.
  - vm_compute. split; [discriminate|reflexivity].
  - by_evaluation.
  - by_evaluation.
  - reflexivity.
Defined.

End SimpleCommandProofs.

Module CommandProofs.
Import Command.

(** ** The three operations of the command manager *)

Lemma execute_command_inv mgr p m mgr' m' :
  execute_command mgr p m = Some (mgr', m') →
  ∃ c m1, commands m !! p = Some c ∧
    execute c p (printf (executing_line c) m) = Some m1 ∧
    clear_future mgr m1 = Some m' ∧
    0 <= current_index mgr + 1 < Z.of_nat (length (command_history mgr)) ∧
    mgr' = mkManager (<[Z.to_nat (current_index mgr + 1) := Some p]> (command_history mgr))
                     (current_index mgr + 1) (current_index mgr + 1 + 1).
Proof.
  unfold execute_command. intros H.
  destruct (commands m !! p) as [c|] eqn:Hc; simplify_eq/=.
  fold (executing_line c) in H.
  destruct (execute c p (printf (executing_line c) m)) as [m1|] eqn:He; simplify_eq/=.
  fold (clear_future mgr m1) in H.
  destruct (clear_future mgr m1) as [m2|] eqn:Hcl; simplify_eq/=.
  unfold array_set in H. case_decide; simplify_eq/=.
  exists c, m1. split_and!; eauto; lia.
Qed.

Lemma undo_command_inv mgr m mgr' m' :
  undo_command mgr m = Some (mgr', m') →
  (0 <= current_index mgr ∧
   ∃ p c, array_get (command_history mgr) (current_index mgr) = Some (Some p) ∧
     commands m !! p = Some c ∧
     undo c p (printf (undoing_line c) m) = Some m' ∧
     mgr' = mkManager (command_history mgr) (current_index mgr - 1) (history_size mgr)) ∨
  (current_index mgr < 0 ∧ mgr' = mgr ∧ m' = printf nothing_to_undo_line m).
Proof.
  unfold undo_command. intros H. destruct (decide (current_index mgr >= 0)).
  - left. split; [lia|].
    destruct (array_get (command_history mgr) (current_index mgr)) as [[p|]|] eqn:Hp;
      simplify_eq/=.
    destruct (commands m !! p) as [c|] eqn:Hc; simplify_eq/=.
    fold (undoing_line c) in H.
    destruct (undo c p (printf (undoing_line c) m)) as [m1|] eqn:Hu; simplify_eq/=.
    eauto 10.
  - right. simplify_eq. split_and!; [lia|done|done].
Qed.

Lemma redo_command_step mgr p c m :
  current_index mgr + 1 < history_size mgr →
  array_get (command_history mgr) (current_index mgr + 1) = Some (Some p) →
  commands m !! p = Some c →
  redo_command mgr m =
    m' ← execute c p (printf (redoing_line c) m);
    Some (mkManager (command_history mgr) (current_index mgr + 1) (history_size mgr), m').
Proof.
  intros Hn Hp Hc. unfold redo_command. rewrite decide_True by done.
  rewrite Hp. simpl. rewrite Hc. simpl. done.
Qed.

Lemma redo_command_tip mgr m :
  history_size mgr <= current_index mgr + 1 →
  redo_command mgr m = Some (mgr, printf nothing_to_redo_line m).
Proof. intros Hn. unfold redo_command. by rewrite decide_False by lia. Qed.

Lemma redo_command_inv mgr m mgr' m' :
  redo_command mgr m = Some (mgr', m') →
  (current_index mgr + 1 < history_size mgr ∧
   ∃ p c, array_get (command_history mgr) (current_index mgr + 1) = Some (Some p) ∧
     commands m !! p = Some c ∧
     execute c p (printf (redoing_line c) m) = Some m' ∧
     mgr' = mkManager (command_history mgr) (current_index mgr + 1) (history_size mgr)) ∨
  (history_size mgr <= current_index mgr + 1 ∧ mgr' = mgr ∧
   m' = printf nothing_to_redo_line m).
Proof.
  intros H. destruct (decide (current_index mgr + 1 < history_size mgr)) as [Hlt|Hge].
  - left. split; [done|]. unfold redo_command in H. rewrite decide_True in H by done.
    destruct (array_get (command_history mgr) (current_index mgr + 1)) as [[p|]|] eqn:Hp;
      simplify_eq/=.
    destruct (commands m !! p) as [c|] eqn:Hc; simplify_eq/=.
    fold (redoing_line c) in H.
    destruct (execute c p (printf (redoing_line c) m)) as [m1|] eqn:He; simplify_eq/=.
    eauto 10.
  - right. rewrite redo_command_tip in H by lia. simplify_eq. split_and!; [lia|done|done].
Qed.

(** The loop of [execute_command] frees every command after the current
    position and touches nothing else. *)
Lemma iter_destroy h n i m m' :
  iter_up n i (λ i m, p ← array_get h i ≫= id; c ← commands m !! p; destroy c p m) m = Some m' →
  editors m' = editors m ∧ stdout m' = stdout m ∧
  (∀ q, commands m !! q = None → commands m' !! q = None) ∧
  (∀ j, i <= j < i + Z.of_nat n →
        ∃ q, array_get h j ≫= id = Some q ∧ commands m' !! q = None).
Proof.
  revert i m. induction n as [|n IH]; intros i m H; simpl in H.
  - simplify_eq. split_and!; try done. intros j Hj. lia.
  - destruct (array_get h i ≫= id) as [p|] eqn:Hp; simplify_eq/=.
    destruct (commands m !! p) as [c|] eqn:Hc; simplify_eq/=.
    unfold destroy, command_destroy in H. rewrite Hc in H. simpl in H.
    apply IH in H as (He & Ho & Hmono & Hfreed). simpl in *.
    split_and!; [done|done| |].
    + intros q Hq. apply Hmono. by rewrite lookup_delete_None; right.
    + intros j Hj. destruct (decide (j = i)) as [->|].
      * exists p. split; [done|]. apply Hmono. apply lookup_delete_eq.
      * apply Hfreed. lia.
Qed.

Lemma clear_future_frees mgr m m' :
  clear_future mgr m = Some m' →
  editors m' = editors m ∧ stdout m' = stdout m ∧
  ∀ j, current_index mgr + 1 <= j < history_size mgr →
       ∃ q, array_get (command_history mgr) j ≫= id = Some q ∧ commands m' !! q = None.
Proof.
  unfold clear_future, for_up. intros H.
  apply iter_destroy in H as (He & Ho & _ & Hfreed).
  split_and!; [done|done|]. intros j Hj. apply Hfreed. lia.
Qed.

(** Executing a command leaves nothing to redo: the new command is the last
    entry of the history. *)
Lemma execute_command_truncates mgr p m mgr' m' :
  execute_command mgr p m = Some (mgr', m') →
  history_size mgr' = current_index mgr' + 1 ∧
  redo_command mgr' m' = Some (mgr', printf nothing_to_redo_line m').
Proof.
  intros H. apply execute_command_inv in H as (c & m1 & _ & _ & _ & _ & ->).
  split; [done|]. apply redo_command_tip. simpl. lia.
Qed.

(** Truncation on branch in the program that has redo: with [C1, C2, C3] in
    the history and the cursor at C3, two undos and the execution of C4 leave
    the history [C1, C4] with the cursor at C4; C2 and C3 have been destroyed
    and [redo_command] finds nothing to redo. *)
Lemma manager_truncation_on_branch mgr m C1 C2 C3 C4 s1 s2 s3 :
  current_index mgr = 2 → history_size mgr = 3 →
  take 3 (command_history mgr) = [Some C1; Some C2; Some C3] →
  undo_command mgr m = Some s1 →
  undo_command s1.1 s1.2 = Some s2 →
  execute_command s2.1 C4 s2.2 = Some s3 →
  current_index s3.1 = 1 ∧ history_size s3.1 = 2 ∧
  take 2 (command_history s3.1) = [Some C1; Some C4] ∧
  commands s3.2 !! C2 = None ∧ commands s3.2 !! C3 = None ∧
  redo_command s3.1 s3.2 = Some (s3.1, printf nothing_to_redo_line s3.2).
Proof.
  intros Hi Hn Hh H1 H2 H3. destruct s1 as [g1 m1], s2 as [g2 m2], s3 as [g3 m3].
  simpl in *.
  apply undo_command_inv in H1 as [(_ & p1 & c1 & _ & _ & _ & ->)|(? & _)]; [|lia].
  apply undo_command_inv in H2 as [(_ & p2 & c2 & _ & _ & _ & ->)|(? & _)]; [|simpl in *; lia].
  pose proof (execute_command_truncates _ _ _ _ _ H3) as [_ Hredo].
  apply execute_command_inv in H3 as (c & m' & _ & _ & Hcl & Hb & ->).
  apply clear_future_frees in Hcl as (_ & _ & Hfreed). simpl in *.
  rewrite Hi, Hn in *.
  destruct (command_history mgr) as [|x0 [|x1 [|x2 h]]]; simplify_eq/=.
  split_and!; try done.
  - destruct (Hfreed 1) as (q & Hq & Hnone); [lia|].
    unfold array_get in Hq. rewrite decide_True in Hq by (simpl; lia). by simplify_eq/=.
  - destruct (Hfreed 2) as (q & Hq & Hnone); [lia|].
    unfold array_get in Hq. rewrite decide_True in Hq by (simpl; lia). by simplify_eq/=.
Qed.

(** The objects of [main] exist, and the scenario above on them: three
    insertions, two undos and a fourth insertion. *)
Lemma demo_created : create_demo = Some demo.
Proof. by_evaluation. Qed.

Example manager_truncation_demo :
  let before := [Execute (insert_hello demo); Execute (insert_world demo);
                 Execute (insert_bang demo)] in
  let s3 := demo_after (before ++ [Undo; Undo; Execute (insert_space demo)]) in
  run (before ++ [Undo; Undo; Execute (insert_space demo)])
      (create_command_manager, demo_mem demo) = Some s3 ∧
  current_index s3.1 = 1 ∧ history_size s3.1 = 2 ∧
  take 2 (command_history s3.1) = [Some (insert_hello demo); Some (insert_space demo)] ∧
  commands s3.2 !! insert_world demo = None ∧
  commands s3.2 !! insert_bang demo = None ∧
  redo_command s3.1 s3.2 = Some (s3.1, printf nothing_to_redo_line s3.2).
Proof.
  intros before s3. split; [by_evaluation|].
  apply (manager_truncation_on_branch (demo_after before).1 (demo_after before).2
           (insert_hello demo) (insert_world demo) (insert_bang demo) (insert_space demo)
           (demo_after (before ++ [Undo])) (demo_after (before ++ [Undo; Undo])) s3);
    by_evaluation.
Qed.

(** C7 — Redo.  When the cursor is not at the tip
    ([current_index + 1 < history_size]), [redo_command] increments
    [current_index] and then calls the execute function of the command now
    at the cursor: the memory it returns is the memory that this one call
    returns (and it returns exactly when the call does), while the history
    array and [history_size] are as before — the command is not appended
    again and nothing after it is truncated. *)
Theorem redo_reexecutes mgr p c m :
  current_index mgr + 1 < history_size mgr →
  array_get (command_history mgr) (current_index mgr + 1) = Some (Some p) →
  commands m !! p = Some c →
  redo_command mgr m =
    (m' ← execute c p (printf (redoing_line c) m);
     Some (mkManager (command_history mgr) (current_index mgr + 1) (history_size mgr), m')) ∧
  ∀ mgr' m', redo_command mgr m = Some (mgr', m') →
    current_index mgr' = current_index mgr + 1 ∧
    array_get (command_history mgr') (current_index mgr') = Some (Some p) ∧
    execute c p (printf (redoing_line c) m) = Some m' ∧
    command_history mgr' = command_history mgr ∧
    history_size mgr' = history_size mgr.
Proof.
  intros Hn Hp Hc. split; [by apply redo_command_step|].
  intros mgr' m'. rewrite (redo_command_step mgr p c) by done.
  destruct (execute c p (printf (redoing_line c) m)) as [m1|]; intros ?; simplify_eq/=.
  done.
Qed.

Lemma redo_reexecutes_witness :
  let ops := [Execute (insert_hello demo); Execute (insert_world demo); Undo] in
  let s := demo_after ops in
  let c := InsertCommand "Insert" (demo_editor demo)
             (list_ascii_of_string " World" ++ replicate 194 NUL) 5 in
  ∃ mgr' m',
    run ops (create_command_manager, demo_mem demo) = Some s ∧
    redo_command s.1 s.2 = Some (mgr', m') ∧
    current_index s.1 = 0 ∧
    current_index mgr' = 1 ∧
    array_get (command_history mgr') (current_index mgr') = Some (Some (insert_world demo)) ∧
    execute c (insert_world demo) (printf (redoing_line c) s.2) = Some m' ∧
    command_history mgr' = command_history s.1 ∧
    history_size mgr' = 2.
Proof.
  intros ops s c.
  destruct (redo_reexecutes s.1 (insert_world demo) c s.2) as [Heq Hall].
  - by_evaluation.
  - by_evaluation.
  - by_evaluation.
  - destruct (redo_command s.1 s.2) as [[mgr' m']|] eqn:Hredo; [|by vm_compute in Hredo].
    exists mgr', m'. destruct (Hall mgr' m' eq_refl) as (H1 & H2 & H3 & H4 & H5).
    split_and!; [by_evaluation|done|by_evaluation|exact H1|exact H2|exact H3|exact H4|exact H5].
Defined.

End CommandProofs.

(** * Claims about both invokers *)
Module HistoryProofs.

(** C5 — Boundary no-ops.  [press_undo] on an empty history
    ([history_count == 0]) returns normally, prints the "Nothing to undo"
    line and nothing else, calls no command function, and leaves the remote
    control, the lights and the command objects as they were; [redo_command]
    at the tip of the history ([current_index == history_size - 1]) prints
    the "Nothing to redo" line and leaves the manager, the editor and the
    command objects as they were. *)
Theorem boundary_no_ops r m mgr cm :
  SimpleCommand.history_count r = 0 →
  Command.current_index mgr = Command.history_size mgr - 1 →
  (∃ m', SimpleCommand.press_undo r m = Some (r, m') ∧
     SimpleCommand.lights m' = SimpleCommand.lights m ∧
     SimpleCommand.commands m' = SimpleCommand.commands m ∧
     SimpleCommand.stdout m' = SimpleCommand.stdout m ++ [SimpleCommand.nothing_to_undo_line]) ∧
  (∃ cm', Command.redo_command mgr cm = Some (mgr, cm') ∧
     Command.editors cm' = Command.editors cm ∧
     Command.commands cm' = Command.commands cm ∧
     Command.stdout cm' = Command.stdout cm ++ [Command.nothing_to_redo_line]).
Proof.
  intros Hn Htip. split.
  - rewrite SimpleCommandProofs.press_undo_empty by lia. eauto.
  - rewrite CommandProofs.redo_command_tip by lia. eauto.
Qed.

Lemma boundary_no_ops_witness :
  let r := SimpleCommand.create_remote in
  let m := SimpleCommand.demo_mem SimpleCommand.demo in
  let s := Command.demo_after [Command.Execute (Command.insert_hello Command.demo)] in
  (∃ m', SimpleCommand.press_undo r m = Some (r, m') ∧
     SimpleCommand.lights m' = SimpleCommand.lights m ∧
     SimpleCommand.commands m' = SimpleCommand.commands m ∧
     SimpleCommand.stdout m' = SimpleCommand.stdout m ++ [SimpleCommand.nothing_to_undo_line]) ∧
  (∃ cm', Command.redo_command s.1 s.2 = Some (s.1, cm') ∧
     Command.editors cm' = Command.editors s.2 ∧
     Command.commands cm' = Command.commands s.2 ∧
     Command.stdout cm' = Command.stdout s.2 ++ [Command.nothing_to_redo_line]).
Proof.
  intros r m s. apply (boundary_no_ops r m s.1 s.2).
  - reflexivity.
  - by_evaluation.
Defined.

(** The invokers have no failure channel: the effects of a command are
    functions that return nothing, and so are the operations of the two
    invokers.  Whenever an operation returns, it has updated the history:
    [press_button] (when the history has room) and [execute_command] have
    recorded the command as the tip, [press_undo] and [undo_command] (on a
    non-empty history) have moved the cursor back by one, and [redo_command]
    (below the tip) has moved it forward by one. *)
Theorem history_updated_whatever_the_effect :
  (∀ r p m r' m',
     SimpleCommand.press_button r p m = Some (r', m') →
     SimpleCommand.history_count r < SimpleCommand.MAX_HISTORY →
     SimpleCommand.history_count r' = SimpleCommand.history_count r + 1 ∧
     SimpleCommand.tip r' = Some p) ∧
  (∀ r m r' m',
     SimpleCommand.press_undo r m = Some (r', m') →
     0 < SimpleCommand.history_count r →
     SimpleCommand.history_count r' = SimpleCommand.history_count r - 1) ∧
  (∀ mgr p m mgr' m',
     Command.execute_command mgr p m = Some (mgr', m') →
     Command.current_index mgr' = Command.current_index mgr + 1 ∧
     Command.history_size mgr' = Command.current_index mgr' + 1 ∧
     array_get (Command.command_history mgr') (Command.current_index mgr') = Some (Some p)) ∧
  (∀ mgr m mgr' m',
     Command.undo_command mgr m = Some (mgr', m') →
     0 <= Command.current_index mgr →
     Command.current_index mgr' = Command.current_index mgr - 1 ∧
     Command.history_size mgr' = Command.history_size mgr) ∧
  (∀ mgr m mgr' m',
     Command.redo_command mgr m = Some (mgr', m') →
     Command.current_index mgr + 1 < Command.history_size mgr →
     Command.current_index mgr' = Command.current_index mgr + 1 ∧
     Command.history_size mgr' = Command.history_size mgr).
Proof.
  split_and!.
  - intros r p m r' m' H Hroom.
    apply SimpleCommandProofs.press_button_inv in H
      as (c & m1 & _ & _ & _ & [(_ & Hb & ->)|(? & _)]); [|lia].
    split; [done|]. unfold SimpleCommand.tip. simpl.
    replace (SimpleCommand.history_count r + 1 - 1) with (SimpleCommand.history_count r) by lia.
    unfold array_get. rewrite length_insert, decide_True by done.
    rewrite list_lookup_insert_eq by lia. done.
  - intros r m r' m' H Hn.
    apply SimpleCommandProofs.press_undo_inv in H
      as [(_ & _ & p & c & _ & _ & _ & ->)|(? & _)]; [done|lia].
  - intros mgr p m mgr' m' H.
    apply CommandProofs.execute_command_inv in H as (c & m1 & _ & _ & _ & Hb & ->).
    simpl. split_and!; [done|done|].
    unfold array_get. rewrite length_insert, decide_True by done.
    rewrite list_lookup_insert_eq by lia. done.
  - intros mgr m mgr' m' H Hn.
    apply CommandProofs.undo_command_inv in H
      as [(_ & p & c & _ & _ & _ & ->)|(? & _)]; [done|lia].
  - intros mgr m mgr' m' H Hn.
    apply CommandProofs.redo_command_inv in H
      as [(_ & p & c & _ & _ & _ & ->)|(? & _)]; [done|lia].
Qed.

Lemma history_updated_whatever_the_effect_witness :
  let s := Command.demo_after [Command.Execute (Command.insert_hello Command.demo);
                               Command.Execute (Command.copy_hello Command.demo)] in
  let s' := Command.demo_after [Command.Execute (Command.insert_hello Command.demo);
                                Command.Execute (Command.copy_hello Command.demo);
                                Command.Undo] in
  0 <= Command.current_index s.1 ∧
  Command.undo_command s.1 s.2 = Some s' ∧
  Command.current_index s'.1 = Command.current_index s.1 - 1 ∧
  Command.history_size s'.1 = Command.history_size s.1.
Proof.
  intros s s'.
  assert (Hn : 0 <= Command.current_index s.1) by by_evaluation.
  assert (Hu : Command.undo_command s.1 s.2 = Some (s'.1, s'.2))
    by by_evaluation.
  destruct history_updated_whatever_the_effect as (_ & _ & _ & Hundo & _).
  destruct (Hundo s.1 s.2 s'.1 s'.2 Hu Hn) as [H1 H2].
  split_and!; [exact Hn|by vm_compute|exact H1|exact H2].
Defined.

End HistoryProofs.

(** * The text editor of command.c: what the two shifting loops compute *)
Module TextEditorProofs.
Import Command.

(** ** Arrays indexed by [Z] *)

Lemma array_get_nat {A} (a : list A) (i : nat) : array_get a (Z.of_nat i) = a !! i.
Proof.
  unfold array_get. rewrite Nat2Z.id. case_decide as H; [done|].
  symmetry. apply lookup_ge_None. lia.
Qed.

Lemma array_get_Some {A} (a : list A) (i : Z) x :
  array_get a i = Some x ↔ 0 <= i ∧ a !! Z.to_nat i = Some x.
Proof.
  unfold array_get. case_decide as H.
  - split; [intros; split; [lia|done]|by intros [_ ?]].
  - split; [done|]. intros [Hi Hx]. apply lookup_lt_Some in Hx. lia.
Qed.

Lemma array_get_is_Some {A} (a : list A) (i : Z) :
  0 <= i < Z.of_nat (length a) → is_Some (array_get a i).
Proof.
  intros H. unfold array_get. rewrite decide_True by done.
  apply lookup_lt_is_Some. lia.
Qed.

Lemma array_get_None {A} (a : list A) (i : Z) :
  i < 0 ∨ Z.of_nat (length a) <= i → array_get a i = None.
Proof. intros H. unfold array_get. rewrite decide_False; [done|lia]. Qed.

Lemma array_get_insert {A} (a : list A) (i j : Z) v :
  0 <= i < Z.of_nat (length a) →
  array_get (<[Z.to_nat i := v]> a) j = if decide (j = i) then Some v else array_get a j.
Proof.
  intros Hi. unfold array_get. rewrite length_insert.
  destruct (decide (j = i)) as [->|Hne].
  - rewrite decide_True by done. apply list_lookup_insert_eq. lia.
  - case_decide; [|done]. apply list_lookup_insert_ne. lia.
Qed.


Lemma array_get_app {A} (l1 l2 : list A) (j : Z) :
  array_get (l1 ++ l2) j =
    if decide (j < Z.of_nat (length l1)) then array_get l1 j
    else array_get l2 (j - Z.of_nat (length l1)).
Proof.
  destruct (decide (0 <= j)) as [Hj|Hj].
  - rewrite <- (Z2Nat.id j) by done. set (i := Z.to_nat j).
    rewrite array_get_nat. case_decide.
    + rewrite array_get_nat. apply lookup_app_l. lia.
    + replace (Z.of_nat i - Z.of_nat (length l1)) with (Z.of_nat (i - length l1)) by lia.
      rewrite array_get_nat. apply lookup_app_r. lia.
  - rewrite !array_get_None by lia. by case_decide.
Qed.

Lemma array_get_take {A} (l : list A) (p j : Z) :
  0 <= p →
  array_get (take (Z.to_nat p) l) j = if decide (j < p) then array_get l j else None.
Proof.
  intros Hp. destruct (decide (0 <= j)) as [Hj|Hj].
  - rewrite <- (Z2Nat.id j) by done. set (i := Z.to_nat j).
    rewrite !array_get_nat. case_decide.
    + apply lookup_take_lt. lia.
    + apply lookup_take_ge. lia.
  - rewrite !array_get_None by lia. by case_decide.
Qed.

Lemma array_get_drop {A} (l : list A) (p j : Z) :
  0 <= p → 0 <= j →
  array_get (drop (Z.to_nat p) l) j = array_get l (j + p).
Proof.
  intros Hp Hj. rewrite <- (Z2Nat.id j) by done. set (i := Z.to_nat j).
  replace (Z.of_nat i + p) with (Z.of_nat (Z.to_nat p + i)) by lia.
  rewrite !array_get_nat. apply lookup_drop.
Qed.

(** ** Strings in arrays *)

Lemma strlen_list_spec (a : list ascii) (n : nat) :
  strlen_list a = Some n ↔
  (a !! n = Some NUL ∧ ∀ i x, (i < n)%nat → a !! i = Some x → x ≠ NUL).
Proof.
  revert n. induction a as [|c a IH]; intros n; simpl.
  - split; [done|]. by intros [? _].
  - destruct (decide (c = NUL)) as [->|Hc].
    + split.
      * intros [= <-]. split; [done|]. intros i x Hi. lia.
      * intros [Hn Hlt]. destruct n as [|n]; [done|].
        by destruct (Hlt O NUL); [lia|done|].
    + destruct n as [|n].
      * split; [by destruct (strlen_list a)|]. intros [[= ->] _]. done.
      * rewrite fmap_Some. split.
        -- intros (k & Hk & [= <-]). apply IH in Hk as [Hn Hlt].
           split; [done|]. intros [|i] x Hi Hx; simplify_eq/=; [done|].
           apply (Hlt i); [lia|done].
        -- intros [Hn Hlt]. exists n. split; [|done]. apply IH. split; [done|].
           intros i x Hi Hx. apply (Hlt (S i)); [lia|done].
Qed.

(** An array holds the string [s] when [s] is free of terminators, lies at
    the start of the array and is followed by a terminator. *)
Lemma c_chars_spec (a s : list ascii) :
  c_chars a = Some s ↔
  ((NUL ∉ s) ∧
   (∀ j, 0 <= j < Z.of_nat (length s) → array_get a j = array_get s j) ∧
   array_get a (Z.of_nat (length s)) = Some NUL).
Proof.
  unfold c_chars. split.
  - intros H. destruct (strlen_list a) as [n|] eqn:Hn; simplify_eq/=.
    apply strlen_list_spec in Hn as [Hnul Hlt].
    assert (Hlen : length (take n a) = n).
    { apply length_take_le. apply lookup_lt_Some in Hnul. lia. }
    rewrite Hlen. split_and!.
    + intros Hin. apply list_elem_of_lookup in Hin as [i Hi].
      apply lookup_take_Some in Hi as [Hi ?]. by apply (Hlt i NUL).
    + intros j Hj. rewrite <- (Z2Nat.id j) by lia. rewrite !array_get_nat.
      symmetry. apply lookup_take_lt. lia.
    + by rewrite array_get_nat.
  - intros (Hnot & Hget & Hnul). rewrite array_get_nat in Hnul.
    assert (Hn : strlen_list a = Some (length s)).
    { apply strlen_list_spec. split; [done|]. intros i x Hi Hx ->.
      apply Hnot. apply list_elem_of_lookup. exists i.
      rewrite <- !array_get_nat in *. rewrite <- Hget by lia. done. }
    rewrite Hn. simpl. f_equal. apply list_eq. intros i.
    destruct (decide (i < length s)%nat).
    + rewrite lookup_take_lt by done. rewrite <- !array_get_nat. apply Hget. lia.
    + rewrite lookup_take_ge by lia. symmetry. apply lookup_ge_None. lia.
Qed.

Lemma c_str_chars (a : list ascii) : c_str a = string_of_list_ascii <$> c_chars a.
Proof. unfold c_str, c_chars. by destruct (strlen_list a). Qed.

Lemma c_chars_strlen (a s : list ascii) :
  c_chars a = Some s → strlen a = Some (Z.of_nat (length s)) ∧
  (length s < length a)%nat.
Proof.
  intros H. pose proof H as H'. apply c_chars_spec in H' as (_ & _ & Hnul).
  rewrite array_get_nat in Hnul. apply lookup_lt_Some in Hnul.
  unfold c_chars, strlen in *. destruct (strlen_list a) as [n|] eqn:Hn; simplify_eq/=.
  apply strlen_list_spec in Hn as [Hn _]. apply lookup_lt_Some in Hn.
  rewrite length_take_le by lia. split; [done|]. rewrite length_take_le in Hnul by lia. done.
Qed.

(** ** Loop invariants *)

Lemma iter_up_inv {St} (P : Z → St → Prop) body (n : nat) i s :
  P i s →
  (∀ j s, i <= j < i + Z.of_nat n → P j s → ∃ s', body j s = Some s' ∧ P (j + 1) s') →
  ∃ s', iter_up n i body s = Some s' ∧ P (i + Z.of_nat n) s'.
Proof.
  revert i s. induction n as [|n IH]; intros i s HP Hstep; simpl.
  - exists s. split; [done|]. by replace (i + Z.of_nat 0) with i by lia.
  - destruct (Hstep i s) as (s1 & -> & HP1); [lia|done|]. simpl.
    destruct (IH (i + 1) s1 HP1) as (s' & Hs' & HP').
    + intros j s2 Hj. apply Hstep. lia.
    + exists s'. split; [done|]. by replace (i + Z.of_nat (S n)) with (i + 1 + Z.of_nat n) by lia.
Qed.

Lemma iter_down_inv {St} (P : Z → St → Prop) body (n : nat) i s :
  P i s →
  (∀ j s, i - Z.of_nat n < j <= i → P j s → ∃ s', body j s = Some s' ∧ P (j - 1) s') →
  ∃ s', iter_down n i body s = Some s' ∧ P (i - Z.of_nat n) s'.
Proof.
  revert i s. induction n as [|n IH]; intros i s HP Hstep; simpl.
  - exists s. split; [done|]. by replace (i - Z.of_nat 0) with i by lia.
  - destruct (Hstep i s) as (s1 & -> & HP1); [lia|done|]. simpl.
    destruct (IH (i - 1) s1 HP1) as (s' & Hs' & HP').
    + intros j s2 Hj. apply Hstep. lia.
    + exists s'. split; [done|]. by replace (i - Z.of_nat (S n)) with (i - 1 - Z.of_nat n) by lia.
Qed.

(** ** The three loops of the editor *)

(** [for (i = hi; i >= lo; i--) c[i + k] = c[i];] moves the block
    [lo .. hi] up by [k] places. *)
Lemma shift_right_spec (c : list ascii) (hi lo k : Z) :
  0 <= k → 0 <= lo → hi + k < Z.of_nat (length c) →
  ∃ c', for_down hi lo (λ i c, x ← array_get c i; array_set c (i + k) x) c = Some c' ∧
    length c' = length c ∧
    ∀ j, array_get c' j =
         if decide (lo + k <= j <= hi + k) then array_get c (j - k) else array_get c j.
Proof.
  intros Hk Hlo Hhi. unfold for_down.
  set (n := Z.to_nat (hi - lo + 1)).
  destruct (iter_down_inv
    (λ i c', length c' = length c ∧
       ∀ j, array_get c' j =
            if decide (i + 1 + k <= j <= hi + k) then array_get c (j - k) else array_get c j)
    (λ i c, x ← array_get c i; array_set c (i + k) x) n hi c) as (c' & Hrun & Hlen & Hget).
  - split; [done|]. intros j. by rewrite decide_False by lia.
  - intros i c1 Hi [Hlen Hget].
    destruct (array_get_is_Some c i) as [x Hx]; [lia|].
    assert (array_get c1 i = Some x) as ->.
    { rewrite Hget. by rewrite decide_False by lia. }
    simpl. unfold array_set. rewrite decide_True by lia.
    eexists. split; [done|]. split; [by rewrite length_insert|].
    intros j. rewrite array_get_insert by lia. rewrite Hget.
    destruct (decide (j = i + k)) as [->|].
    + rewrite decide_True by lia. by replace (i + k - k) with i by lia.
    + repeat case_decide; try done; lia.
  - exists c'. split_and!; [done|done|]. intros j. rewrite Hget.
    repeat case_decide; try done; lia.
Qed.

(** [for (i = 0; i < k; i++) c[p + i] = text[i];] writes the first [k]
    characters of [text] at [p]. *)
Lemma copy_in_spec (c text : list ascii) (p k : Z) :
  0 <= p → 0 <= k → p + k <= Z.of_nat (length c) → k <= Z.of_nat (length text) →
  ∃ c', for_up 0 k (λ i c, x ← array_get text i; array_set c (p + i) x) c = Some c' ∧
    length c' = length c ∧
    ∀ j, array_get c' j =
         if decide (p <= j < p + k) then array_get text (j - p) else array_get c j.
Proof.
  intros Hp Hk Hc Ht. unfold for_up.
  destruct (iter_up_inv
    (λ i c', length c' = length c ∧
       ∀ j, array_get c' j =
            if decide (p <= j < p + i) then array_get text (j - p) else array_get c j)
    (λ i c, x ← array_get text i; array_set c (p + i) x) (Z.to_nat (k - 0)) 0 c)
    as (c' & Hrun & Hlen & Hget).
  - split; [done|]. intros j. by rewrite decide_False by lia.
  - intros i c1 Hi [Hlen Hget].
    destruct (array_get_is_Some text i) as [x Hx]; [lia|]. rewrite Hx. simpl.
    unfold array_set. rewrite decide_True by lia.
    eexists. split; [done|]. split; [by rewrite length_insert|].
    intros j. rewrite array_get_insert by lia. rewrite Hget.
    destruct (decide (j = p + i)) as [->|].
    + rewrite decide_True by lia. by replace (p + i - p) with i by lia.
    + repeat case_decide; try done; lia.
  - exists c'. split_and!; [done|done|]. intros j. rewrite Hget.
    repeat case_decide; try done; lia.
Qed.

(** [for (i = start; i <= n - len; i++) c[i] = c[i + len];] moves the block
    [start + len .. n] down by [len] places. *)
Lemma shift_left_spec (c : list ascii) (start n len : Z) :
  0 <= start → 0 <= len → n < Z.of_nat (length c) →
  ∃ c', for_up start (n - len + 1)
          (λ i c, x ← array_get c (i + len); array_set c i x) c = Some c' ∧
    length c' = length c ∧
    ∀ j, array_get c' j =
         if decide (start <= j <= n - len) then array_get c (j + len) else array_get c j.
Proof.
  intros Hs Hl Hn. unfold for_up.
  destruct (iter_up_inv
    (λ i c', length c' = length c ∧
       ∀ j, array_get c' j =
            if decide (start <= j < i) then array_get c (j + len) else array_get c j)
    (λ i c, x ← array_get c (i + len); array_set c i x)
    (Z.to_nat (n - len + 1 - start)) start c) as (c' & Hrun & Hlen & Hget).
  - split; [done|]. intros j. by rewrite decide_False by lia.
  - intros i c1 Hi [Hlen Hget].
    destruct (array_get_is_Some c (i + len)) as [x Hx]; [lia|].
    assert (array_get c1 (i + len) = Some x) as ->.
    { rewrite Hget. by rewrite decide_False by lia. }
    simpl. unfold array_set. rewrite decide_True by lia.
    eexists. split; [done|]. split; [by rewrite length_insert|].
    intros j. rewrite array_get_insert by lia. rewrite Hget.
    destruct (decide (j = i)) as [->|].
    + by rewrite decide_True by lia.
    + repeat case_decide; try done; lia.
  - exists c'. split_and!; [done|done|]. intros j. rewrite Hget.
    repeat case_decide; try done; lia.
Qed.

(** ** The editor operations on strings *)

(* The array after an insertion at or before the end of the text. *)
Lemma insert_text_spec self ed text position m s t :
  editors m !! self = Some ed →
  c_chars (content ed) = Some s →
  c_chars text = Some t →
  0 <= position <= Z.of_nat (length s) →
  (length s + length t < length (content ed))%nat →
  ∃ ed' m',
    text_editor_insert_text self text position m = Some m' ∧
    editors m' = <[self := ed']> (editors m) ∧
    commands m' = commands m ∧
    c_chars (content ed') =
      Some (take (Z.to_nat position) s ++ t ++ drop (Z.to_nat position) s) ∧
    length (content ed') = length (content ed) ∧
    cursor_position ed' = position + Z.of_nat (length t) ∧
    clipboard ed' = clipboard ed.
Proof.
  intros Hed Hs Ht Hpos Hfit.
  destruct (c_chars_strlen _ _ Hs) as [Hn Hnlt].
  destruct (c_chars_strlen _ _ Ht) as [Hk Hklt].
  set (n := Z.of_nat (length s)) in *. set (k := Z.of_nat (length t)) in *.
  destruct (shift_right_spec (content ed) n position k) as (c1 & Hc1 & Hlen1 & Hget1);
    [lia|lia|lia|].
  destruct (copy_in_spec c1 text position k) as (c2 & Hc2 & Hlen2 & Hget2);
    [lia|lia|lia|lia|].
  unfold text_editor_insert_text. rewrite Hed. simpl. rewrite Hk. simpl.
  rewrite Hn. simpl. rewrite Hc1. simpl. rewrite Hc2. simpl.
  rewrite c_str_chars, Ht. simpl.
  eexists (mkEditor c2 (position + k) (clipboard ed)), _.
  split_and!; try done; [|simpl; congruence].
  apply c_chars_spec in Hs as (Hs0 & Hsget & Hsnul).
  apply c_chars_spec in Ht as (Ht0 & Htget & Htnul).
  assert (Hp : length (take (Z.to_nat position) s) = Z.to_nat position)
    by (apply length_take_le; lia).
  assert (Hlen : Z.of_nat (length (take (Z.to_nat position) s ++ t
                                     ++ drop (Z.to_nat position) s)) = n + k).
  { rewrite !length_app, Hp, length_drop. lia. }
  apply c_chars_spec. simpl. split_and!.
  - rewrite !elem_of_app. intros [Hin|[Hin|Hin]]; [|done|].
    + apply Hs0. by apply (subseteq_take (Z.to_nat position)).
    + apply Hs0. by apply (subseteq_drop (Z.to_nat position)).
  - rewrite Hlen. intros j Hj.
    rewrite !array_get_app, Hp, Z2Nat.id, array_get_take by lia.
    rewrite Hget2, Hget1. fold k.
    destruct (decide (j < position)).
    + rewrite !decide_False by lia. apply Hsget. lia.
    + destruct (decide (j - position < k)).
      * rewrite decide_True by lia. apply Htget. lia.
      * rewrite decide_False, decide_True by lia.
        rewrite array_get_drop by lia. rewrite Hsget by lia. f_equal. lia.
  - rewrite Hlen, Hget2, Hget1.
    rewrite decide_False, decide_True by lia.
    replace (n + k - k) with n by lia. done.
Qed.

(** Insertion inside the text or at its end: the document becomes the old
    text with [t] inserted at [position], and the cursor is placed after the
    inserted text. *)
Theorem insert_text_inserts self ed text position m s t :
  editors m !! self = Some ed →
  c_chars (content ed) = Some s →
  c_chars text = Some t →
  0 <= position <= Z.of_nat (length s) →
  (length s + length t < length (content ed))%nat →
  ∃ ed' m',
    text_editor_insert_text self text position m = Some m' ∧
    editors m' = <[self := ed']> (editors m) ∧
    commands m' = commands m ∧
    c_chars (content ed') =
      Some (take (Z.to_nat position) s ++ t ++ drop (Z.to_nat position) s) ∧
    length (content ed') = length (content ed) ∧
    cursor_position ed' = position + Z.of_nat (length t) ∧
    clipboard ed' = clipboard ed.
Proof. exact (insert_text_spec self ed text position m s t). Qed.

Lemma insert_text_inserts_witness :
  let s0 := demo_after [Execute (insert_hello demo)] in
  ∃ ed' m',
    text_editor_insert_text (demo_editor demo) (zeroed_with 200 " World") 5 s0.2 = Some m' ∧
    editors m' = <[demo_editor demo := ed']> (editors s0.2) ∧
    commands m' = commands s0.2 ∧
    c_chars (content ed') = Some (list_ascii_of_string "Hello World") ∧
    length (content ed') = length (content (demo_editor_in s0)) ∧
    cursor_position ed' = 11 ∧
    clipboard ed' = clipboard (demo_editor_in s0).
Proof.
  intros s0.
  apply (insert_text_inserts (demo_editor demo) (demo_editor_in s0)
           (zeroed_with 200 " World") 5 s0.2
           (list_ascii_of_string "Hello") (list_ascii_of_string " World")).
  - by_evaluation.
  - by_evaluation.
  - by_evaluation.
  - by_arith.
  - by_arith.
Defined.



(* The array after a deletion inside the text. *)
Lemma delete_text_spec self ed start length m s :
  editors m !! self = Some ed →
  c_chars (content ed) = Some s →
  0 <= start → 0 <= length →
  start + length <= Z.of_nat (List.length s) →
  ∃ ed' m',
    text_editor_delete_text self start length m = Some m' ∧
    editors m' = <[self := ed']> (editors m) ∧
    commands m' = commands m ∧
    c_chars (content ed') =
      Some (take (Z.to_nat start) s ++ drop (Z.to_nat (start + length)) s) ∧
    List.length (content ed') = List.length (content ed) ∧
    cursor_position ed' = start ∧
    clipboard ed' = clipboard ed.
Proof.
  intros Hed Hs Hstart Hlen Hin.
  destruct (c_chars_strlen _ _ Hs) as [Hn Hnlt].
  set (n := Z.of_nat (List.length s)) in *.
  destruct (shift_left_spec (content ed) start n length) as (c1 & Hc1 & Hlen1 & Hget1);
    [lia|lia|lia|].
  unfold text_editor_delete_text. rewrite Hed. simpl. rewrite Hn. simpl.
  rewrite Hc1. simpl.
  eexists (mkEditor c1 start (clipboard ed)), _.
  split_and!; try done.
  apply c_chars_spec in Hs as (Hs0 & Hsget & Hsnul).
  assert (Hp : List.length (take (Z.to_nat start) s) = Z.to_nat start)
    by (apply length_take_le; lia).
  assert (Hl : Z.of_nat (List.length (take (Z.to_nat start) s
                                        ++ drop (Z.to_nat (start + length)) s)) = n - length).
  { rewrite !length_app, Hp, length_drop. lia. }
  apply c_chars_spec. simpl. split_and!.
  - rewrite !elem_of_app. intros [Hin'|Hin'].
    + apply Hs0. by apply (subseteq_take (Z.to_nat start)).
    + apply Hs0. by apply (subseteq_drop (Z.to_nat (start + length))).
  - rewrite Hl. intros j Hj.
    rewrite !array_get_app, Hp, Z2Nat.id, array_get_take by lia.
    rewrite Hget1.
    destruct (decide (j < start)).
    + rewrite decide_False by lia. apply Hsget. lia.
    + rewrite decide_True by lia. rewrite array_get_drop by lia.
      rewrite Hsget by lia. f_equal. lia.
  - rewrite Hl, Hget1, decide_True by lia.
    replace (n - length + length) with n by lia. done.
Qed.

(** Deletion inside the text: the [length] characters from [start] on are
    removed and the cursor is placed at [start]. *)
Theorem delete_text_deletes self ed start length m s :
  editors m !! self = Some ed →
  c_chars (content ed) = Some s →
  0 <= start → 0 <= length →
  start + length <= Z.of_nat (List.length s) →
  ∃ ed' m',
    text_editor_delete_text self start length m = Some m' ∧
    editors m' = <[self := ed']> (editors m) ∧
    commands m' = commands m ∧
    c_chars (content ed') =
      Some (take (Z.to_nat start) s ++ drop (Z.to_nat (start + length)) s) ∧
    List.length (content ed') = List.length (content ed) ∧
    cursor_position ed' = start ∧
    clipboard ed' = clipboard ed.
Proof. exact (delete_text_spec self ed start length m s). Qed.

Lemma delete_text_deletes_witness :
  let s0 := demo_after [Execute (insert_hello demo); Execute (insert_world demo)] in
  ∃ ed' m',
    text_editor_delete_text (demo_editor demo) 2 5 s0.2 = Some m' ∧
    editors m' = <[demo_editor demo := ed']> (editors s0.2) ∧
    commands m' = commands s0.2 ∧
    c_chars (content ed') = Some (list_ascii_of_string "Heorld") ∧
    List.length (content ed') = List.length (content (demo_editor_in s0)) ∧
    cursor_position ed' = 2 ∧
    clipboard ed' = clipboard (demo_editor_in s0).
Proof.
  intros s0.
  apply (delete_text_deletes (demo_editor demo) (demo_editor_in s0) 2 5 s0.2
           (list_ascii_of_string "Hello World")).
  - by_evaluation.
  - by_evaluation.
  - by_arith.
  - by_arith.
  - by_arith.
Defined.

(** Deletion that reaches past the end of the text removes nothing: the loop
    bound [content_len - length] is below [start], the array is left as it
    is, and only the cursor moves. *)
Theorem delete_text_past_end self ed start length m s :
  editors m !! self = Some ed →
  c_chars (content ed) = Some s →
  Z.of_nat (List.length s) < start + length →
  text_editor_delete_text self start length m =
    Some (printf ("🗑️ Deleted " +:+ fmt_d length +:+ " characters from position "
                  +:+ fmt_d start +:+ LF)
            (store_editor self (mkEditor (content ed) start (clipboard ed)) m)).
Proof.
  intros Hed Hs Hpast.
  destruct (c_chars_strlen _ _ Hs) as [Hn Hnlt].
  unfold text_editor_delete_text. rewrite Hed. simpl. rewrite Hn. simpl.
  unfold for_up.
  replace (Z.to_nat (Z.of_nat (List.length s) - length + 1 - start)) with O by lia.
  done.
Qed.

Lemma delete_text_past_end_witness :
  let s0 := demo_after [Execute (insert_hello demo)] in
  text_editor_delete_text (demo_editor demo) 3 5 s0.2 =
    Some (printf ("🗑️ Deleted " +:+ fmt_d 5 +:+ " characters from position "
                  +:+ fmt_d 3 +:+ LF)
            (store_editor (demo_editor demo)
               (mkEditor (content (demo_editor_in s0)) 3 (clipboard (demo_editor_in s0)))
               s0.2)).
Proof.
  intros s0.
  apply (delete_text_past_end (demo_editor demo) (demo_editor_in s0) 3 5 s0.2
           (list_ascii_of_string "Hello")).
  - by_evaluation.
  - by_evaluation.
  - by_arith.
Defined.

(** ** Round trips of the commands *)

Lemma splice_cut {A} (s t : list A) (p : nat) :
  (p <= length s)%nat →
  take p (take p s ++ t ++ drop p s) ++ drop (p + length t) (take p s ++ t ++ drop p s) = s.
Proof.
  intros Hp. assert (Hl : length (take p s) = p) by (apply length_take_le; lia).
  rewrite take_app_length' by done.
  rewrite (drop_app_add' (take p s)) by done.
  rewrite drop_app_length. apply take_drop.
Qed.

(** Undo inverts execute for an insertion inside the text, and executing
    again (redo) gives the text of the first execution again.  The cursor
    position is not restored by the undo: it is left at [position]. *)
Theorem insert_command_round_trip self nm ep text position m ed s t :
  commands m !! self = Some (InsertCommand nm ep text position) →
  editors m !! ep = Some ed →
  c_chars (content ed) = Some s →
  c_chars text = Some t →
  0 <= position <= Z.of_nat (length s) →
  (length s + length t < length (content ed))%nat →
  ∃ m1 ed1 m2 ed2 m3 ed3,
    insert_command_execute self m = Some m1 ∧
    editors m1 !! ep = Some ed1 ∧
    c_chars (content ed1) =
      Some (take (Z.to_nat position) s ++ t ++ drop (Z.to_nat position) s) ∧
    insert_command_undo self m1 = Some m2 ∧
    editors m2 !! ep = Some ed2 ∧
    c_chars (content ed2) = Some s ∧
    cursor_position ed2 = position ∧
    insert_command_execute self m2 = Some m3 ∧
    editors m3 !! ep = Some ed3 ∧
    c_chars (content ed3) = c_chars (content ed1) ∧
    cursor_position ed3 = cursor_position ed1.
Proof.
  intros Hc Hed Hs Ht Hpos Hfit.
  destruct (c_chars_strlen _ _ Ht) as [Hk _].
  (* execute *)
  destruct (insert_text_spec ep ed text position m s t)
    as (ed1 & m1 & He1 & Hed1 & Hc1 & Hs1 & Hl1 & Hcur1 & _); try done.
  assert (Hed1' : editors m1 !! ep = Some ed1) by (rewrite Hed1; apply lookup_insert_eq).
  (* undo *)
  assert (Hc1' : commands (m1) !! self = Some (InsertCommand nm ep text position))
    by (by rewrite Hc1).
  destruct (delete_text_spec ep ed1 position (Z.of_nat (length t)) m1 _ Hed1' Hs1)
    as (ed2 & m2 & He2 & Hed2 & Hc2 & Hs2 & Hl2 & Hcur2 & _); [lia|lia| |].
  { rewrite !length_app, length_take_le, length_drop by lia. lia. }
  assert (Hed2' : editors m2 !! ep = Some ed2) by (rewrite Hed2; apply lookup_insert_eq).
  replace (Z.to_nat (position + Z.of_nat (length t)))
    with (Z.to_nat position + length t)%nat in Hs2 by lia.
  rewrite splice_cut in Hs2 by lia.
  (* execute again *)
  set (out := printf ("↩️ Undone: Insert '" +:+ string_of_list_ascii t +:+ "'" +:+ LF) m2).
  assert (Hed2'' : editors out !! ep = Some ed2) by done.
  destruct (insert_text_spec ep ed2 text position out s t)
    as (ed3 & m3 & He3 & Hed3 & Hc3 & Hs3 & Hl3 & Hcur3 & _); try done; [lia|].
  exists m1, ed1, out, ed2, m3, ed3. split_and!; try done.
  - unfold insert_command_execute. by rewrite Hc.
  - unfold insert_command_undo. rewrite Hc1'. simpl. rewrite Hk. simpl.
    rewrite He2. simpl. by rewrite c_str_chars, Ht.
  - unfold insert_command_execute.
    assert (commands out !! self = Some (InsertCommand nm ep text position)) as ->
      by (unfold out; simpl; by rewrite Hc2).
    done.
  - rewrite Hed3. apply lookup_insert_eq.
  - congruence.
  - congruence.
Qed.

Lemma insert_command_round_trip_witness :
  let s0 := demo_after [Execute (insert_hello demo)] in
  let p := insert_world demo in
  let ep := demo_editor demo in
  ∃ m1 ed1 m2 ed2 m3 ed3,
    insert_command_execute p s0.2 = Some m1 ∧
    editors m1 !! ep = Some ed1 ∧
    c_chars (content ed1) = Some (list_ascii_of_string "Hello World") ∧
    insert_command_undo p m1 = Some m2 ∧
    editors m2 !! ep = Some ed2 ∧
    c_chars (content ed2) = Some (list_ascii_of_string "Hello") ∧
    cursor_position ed2 = 5 ∧
    insert_command_execute p m2 = Some m3 ∧
    editors m3 !! ep = Some ed3 ∧
    c_chars (content ed3) = c_chars (content ed1) ∧
    cursor_position ed3 = cursor_position ed1.
Proof.
  intros s0 p ep.
  apply (insert_command_round_trip p "Insert" ep (zeroed_with 200 " World") 5 s0.2
           (demo_editor_in s0) (list_ascii_of_string "Hello")
           (list_ascii_of_string " World")).
  - by_evaluation.
  - by_evaluation.
  - by_evaluation.
  - by_evaluation.
  - by_arith.
  - by_arith.
Defined.

(** The two functions of an insert command, on any memory. *)
Lemma insert_command_execute_spec self nm ep text position m ed s t :
  commands m !! self = Some (InsertCommand nm ep text position) →
  editors m !! ep = Some ed →
  c_chars (content ed) = Some s →
  c_chars text = Some t →
  0 <= position <= Z.of_nat (length s) →
  (length s + length t < length (content ed))%nat →
  ∃ ed' m',
    insert_command_execute self m = Some m' ∧
    editors m' !! ep = Some ed' ∧
    commands m' = commands m ∧
    c_chars (content ed') =
      Some (take (Z.to_nat position) s ++ t ++ drop (Z.to_nat position) s) ∧
    length (content ed') = length (content ed).
Proof.
  intros Hc Hed Hs Ht Hpos Hfit.
  destruct (insert_text_spec ep ed text position m s t)
    as (ed1 & m1 & He1 & Hed1 & Hc1 & Hs1 & Hl1 & _); try done.
  exists ed1, m1. split_and!; try done.
  - unfold insert_command_execute. by rewrite Hc.
  - rewrite Hed1. apply lookup_insert_eq.
Qed.

Lemma insert_command_undo_spec self nm ep text position m ed s t :
  commands m !! self = Some (InsertCommand nm ep text position) →
  editors m !! ep = Some ed →
  c_chars (content ed) =
    Some (take (Z.to_nat position) s ++ t ++ drop (Z.to_nat position) s) →
  c_chars text = Some t →
  0 <= position <= Z.of_nat (length s) →
  ∃ ed' m',
    insert_command_undo self m = Some m' ∧
    editors m' !! ep = Some ed' ∧
    commands m' = commands m ∧
    c_chars (content ed') = Some s ∧
    length (content ed') = length (content ed).
Proof.
  intros Hc Hed Hs Ht Hpos.
  destruct (c_chars_strlen _ _ Ht) as [Hk _].
  destruct (delete_text_spec ep ed position (Z.of_nat (length t)) m _ Hed Hs)
    as (ed2 & m2 & He2 & Hed2 & Hc2 & Hs2 & Hl2 & _); [lia|lia| |].
  { rewrite !length_app, length_take_le, length_drop by lia. lia. }
  replace (Z.to_nat (position + Z.of_nat (length t)))
    with (Z.to_nat position + length t)%nat in Hs2 by lia.
  rewrite splice_cut in Hs2 by lia.
  eexists ed2, _. split_and!.
  - unfold insert_command_undo. rewrite Hc. simpl. rewrite Hk. simpl.
    rewrite He2. simpl. by rewrite c_str_chars, Ht.
  - simpl. rewrite Hed2. apply lookup_insert_eq.
  - done.
  - done.
  - done.
Qed.

(** ** The paste command *)





(** ** Copying to the clipboard *)

Lemma strncpy_loop_copy (n : nat) (k : Z) (src : list ascii) (from : Z) (dst : list ascii) :
  0 <= k → k + Z.of_nat n <= Z.of_nat (length dst) →
  (∀ j, k <= j < k + Z.of_nat n →
        ∃ x, array_get src (from + j) = Some x ∧ x ≠ NUL) →
  ∃ d, strncpy_loop n k false src from dst = Some d ∧
    length d = length dst ∧
    ∀ j, array_get d j =
         if decide (k <= j < k + Z.of_nat n) then array_get src (from + j)
         else array_get dst j.
Proof.
  revert k dst. induction n as [|n IH]; intros k dst Hk Hfit Hsrc; simpl.
  - exists dst. split_and!; try done. intros j. by rewrite decide_False by lia.
  - destruct (Hsrc k) as (x & Hx & Hnul); [lia|]. rewrite Hx. simpl.
    unfold array_set. rewrite decide_True by lia. simpl.
    rewrite bool_decide_eq_false_2 by done.
    destruct (IH (k + 1) (<[Z.to_nat k := x]> dst)) as (d & Hd & Hlen & Hget).
    + lia.
    + rewrite length_insert. lia.
    + intros j Hj. apply Hsrc. lia.
    + exists d. rewrite length_insert in Hlen. split_and!; try done.
      intros j. rewrite Hget, array_get_insert by lia.
      destruct (decide (j = k)) as [->|].
      * by rewrite decide_False, decide_True by lia.
      * repeat case_decide; try done; lia.
Qed.

Lemma strlen_list_exists (a : list ascii) (i : nat) :
  a !! i = Some NUL → ∃ n, strlen_list a = Some n ∧ (n <= i)%nat.
Proof.
  revert i. induction a as [|c a IH]; intros i Hi; [done|]. simpl.
  destruct (decide (c = NUL)) as [|Hc]; [exists O; split; [done|lia]|].
  destruct i as [|i]; simplify_eq/=.
  destruct (IH i Hi) as (k & -> & Hk). exists (S k). split; [done|lia].
Qed.

(** [text_editor_copy_text] on a range that lies inside the text copies the
    characters of the range to the start of the clipboard and stores, right
    after them, the character [backslash_zero] (the digit zero) where a
    terminator is meant; the rest of the clipboard, the document and the
    cursor are untouched.  The clipboard then reads as the copied text
    followed by at least that digit. *)
Theorem copy_text_copies self ed start len m s z :
  editors m !! self = Some ed →
  c_chars (content ed) = Some s →
  0 <= start → 0 <= len → start + len <= Z.of_nat (length s) →
  len < z → array_get (clipboard ed) z = Some NUL →
  ∃ ed' m' t,
    text_editor_copy_text self start len m = Some m' ∧
    editors m' = <[self := ed']> (editors m) ∧
    content ed' = content ed ∧ cursor_position ed' = cursor_position ed ∧
    (∀ j, array_get (clipboard ed') j =
          if decide (0 <= j < len) then array_get s (start + j)
          else if decide (j = len) then Some backslash_zero
          else array_get (clipboard ed) j) ∧
    c_chars (clipboard ed') = Some t ∧
    len < Z.of_nat (length t) ∧
    array_get t len = Some backslash_zero.
Proof.
  intros Hed Hs Hstart Hlen Hin Hz Hnul.
  pose proof Hs as Hs'. apply c_chars_spec in Hs' as (Hs0 & Hsget & _).
  destruct (c_chars_strlen _ _ Hs) as [_ Hslt].
  apply array_get_Some in Hnul as Hzb. destruct Hzb as [_ Hzb].
  apply lookup_lt_Some in Hzb.
  destruct (strncpy_loop_copy (Z.to_nat len) 0 (content ed) start (clipboard ed))
    as (cb & Hcb & Hcblen & Hcbget); [lia|lia| |].
  { intros j Hj. destruct (array_get_is_Some s (start + j)) as [x Hx]; [lia|].
    exists x. rewrite Hsget by lia. split; [done|]. intros ->.
    apply Hs0. apply array_get_Some in Hx as [_ Hx]. by apply list_elem_of_lookup_2 in Hx. }
  set (cb' := <[Z.to_nat len := backslash_zero]> cb).
  assert (Hget : ∀ j, array_get cb' j =
            if decide (0 <= j < len) then array_get s (start + j)
            else if decide (j = len) then Some backslash_zero
            else array_get (clipboard ed) j).
  { intros j. unfold cb'. rewrite array_get_insert by lia. rewrite Hcbget.
    destruct (decide (j = len)) as [->|].
    - by rewrite decide_False by lia.
    - rewrite Z2Nat.id by lia.
      destruct (decide (0 <= j < 0 + len)).
      + rewrite decide_True by lia. apply Hsget. lia.
      + by rewrite decide_False by lia. }
  assert (Hnul' : cb' !! Z.to_nat z = Some NUL).
  { pose proof (Hget z) as Hgz. rewrite !decide_False in Hgz by lia.
    rewrite Hnul in Hgz. by apply array_get_Some in Hgz as [_ ?]. }
  destruct (strlen_list_exists _ _ Hnul') as (n & Hn & Hnz).
  assert (Hct : c_chars cb' = Some (take n cb')) by (unfold c_chars; by rewrite Hn).
  pose proof Hct as Hct'. apply c_chars_spec in Hct' as (Ht0 & Htget & Htnul).
  pose proof (proj1 (strlen_list_spec _ _) Hn) as [Hn1 Hn2].
  assert (Hnlen : length (take n cb') = n).
  { apply length_take_le. apply lookup_lt_Some in Hn1. lia. }
  assert (Hbz : backslash_zero ≠ NUL) by (intros [=]).
  assert (Hlen_lt : len < Z.of_nat n).
  { destruct (decide (len < Z.of_nat n)) as [|Hge]; [done|]. exfalso.
    pose proof (Hget (Z.of_nat n)) as Hgn. rewrite array_get_nat, Hn1 in Hgn.
    destruct (decide (0 <= Z.of_nat n < len)) as [Hlt|Hnlt].
    - destruct (array_get_is_Some s (start + Z.of_nat n)) as [x Hx]; [lia|].
      rewrite Hx in Hgn. simplify_eq. apply Hs0.
      apply array_get_Some in Hx as [_ Hx]. by apply list_elem_of_lookup_2 in Hx.
    - destruct (decide (Z.of_nat n = len)); [by simplify_eq|lia]. }
  unfold text_editor_copy_text. rewrite Hed. simpl.
  unfold strncpy. rewrite decide_True by lia. rewrite Hcb. simpl.
  unfold array_set. rewrite decide_True by lia. simpl. fold cb'.
  rewrite c_str_chars, Hct. simpl.
  eexists (mkEditor (content ed) (cursor_position ed) cb'), _, (take n cb').
  split_and!; try done.
  - rewrite Hnlen. done.
  - rewrite <- Htget by (rewrite Hnlen; lia). rewrite Hget.
    by rewrite decide_False, decide_True by lia.
Qed.

Lemma copy_text_copies_witness :
  let s0 := demo_after [Execute (insert_hello demo); Execute (insert_world demo)] in
  let ed := demo_editor_in s0 in
  ∃ ed' m' t,
    text_editor_copy_text (demo_editor demo) 6 5 s0.2 = Some m' ∧
    editors m' = <[demo_editor demo := ed']> (editors s0.2) ∧
    content ed' = content ed ∧ cursor_position ed' = cursor_position ed ∧
    (∀ j, array_get (clipboard ed') j =
          if decide (0 <= j < 5) then array_get (list_ascii_of_string "Hello World") (6 + j)
          else if decide (j = 5) then Some backslash_zero
          else array_get (clipboard ed) j) ∧
    c_chars (clipboard ed') = Some t ∧
    5 < Z.of_nat (length t) ∧
    array_get t 5 = Some backslash_zero.
Proof.
  intros s0 ed.
  apply (copy_text_copies (demo_editor demo) ed 6 5 s0.2
           (list_ascii_of_string "Hello World") 7).
  - by_evaluation.
  - by_evaluation.
  - by_arith.
  - by_arith.
  - by_arith.
  - by_arith.
  - by_evaluation.
Defined.




End TextEditorProofs.

(** * The command manager of command.c: invariants and the fate of
    destroyed commands *)
Module ManagerProofs.
Import Command.

Lemma manager_run_app ops rest s : run (ops ++ rest) s = run ops s ≫= run rest.
Proof.
  revert s. induction ops as [|op ops IH]; intros s; simpl; [done|].
  destruct (step op s) as [s1|]; simpl; [apply IH|done].
Qed.

Lemma create_command_manager_wf : wf_manager create_command_manager.
Proof.
  unfold wf_manager, MAX_COMMANDS. simpl. split_and!; try done.
  intros j Hj. lia.
Qed.

Lemma step_wf_manager op mgr m mgr' m' :
  wf_manager mgr → step op (mgr, m) = Some (mgr', m') → wf_manager mgr'.
Proof.
  intros (Hlen & Hlo & Hidx & Hsize & Hslots) Hs. destruct op as [p| |]; simpl in Hs.
  - apply CommandProofs.execute_command_inv in Hs as (c & m1 & _ & _ & _ & Hb & ->).
    unfold wf_manager. simpl. rewrite length_insert.
    split_and!; [done|lia|lia|unfold MAX_COMMANDS in *; lia|].
    intros j Hj. rewrite TextEditorProofs.array_get_insert by lia.
    case_decide; [eauto|]. apply Hslots. lia.
  - apply CommandProofs.undo_command_inv in Hs
      as [(? & p & c & _ & _ & _ & ->)|(? & -> & _)]; [|done].
    unfold wf_manager. simpl. split_and!; try done; lia.
  - apply CommandProofs.redo_command_inv in Hs
      as [(? & p & c & _ & _ & _ & ->)|(? & -> & _)]; [|done].
    unfold wf_manager. simpl. split_and!; try done; lia.
Qed.

Lemma run_wf_manager ops mgr m mgr' m' :
  wf_manager mgr → run ops (mgr, m) = Some (mgr', m') → wf_manager mgr'.
Proof.
  revert mgr m. induction ops as [|op ops IH]; intros mgr m Hwf Hrun; simpl in Hrun.
  - by simplify_eq.
  - destruct (step op (mgr, m)) as [[mgr1 m1]|] eqn:Hs; simplify_eq/=.
    eauto using step_wf_manager.
Qed.

(** After every operation of any sequence of [execute_command],
    [undo_command] and [redo_command] calls on a new manager, the cursor is
    at least -1 and below the size of the history, the size is at most
    [MAX_COMMANDS], and every slot below the size holds a command address. *)
Theorem manager_invariant ops rest m s :
  run (ops ++ rest) (create_command_manager, m) = Some s →
  ∃ mgr m', run ops (create_command_manager, m) = Some (mgr, m') ∧ wf_manager mgr.
Proof.
  intros Hrun. rewrite manager_run_app in Hrun.
  destruct (run ops (create_command_manager, m)) as [[mgr m']|] eqn:Hops; [|done].
  exists mgr, m'. split; [done|].
  eapply run_wf_manager; [apply create_command_manager_wf|done].
Qed.

Lemma manager_invariant_witness :
  let ops := [Execute (insert_hello demo); Execute (insert_world demo); Undo; Undo; Redo] in
  ∃ mgr m', run ops (create_command_manager, demo_mem demo) = Some (mgr, m') ∧
            wf_manager mgr.
Proof.
  intros ops.
  apply (manager_invariant ops [Undo; Undo] (demo_mem demo)
           (demo_after (ops ++ [Undo; Undo]))).
  by_evaluation.
Defined.

(** [execute_command] has no capacity check: with the cursor at the last
    slot of the array, the call writes [command_history[MAX_COMMANDS]],
    outside the array, and has no defined result. *)
Theorem execute_command_overflow mgr p m :
  wf_manager mgr →
  current_index mgr = MAX_COMMANDS - 1 →
  execute_command mgr p m = None.
Proof.
  intros (Hlen & _) Hidx.
  destruct (execute_command mgr p m) as [[mgr' m']|] eqn:H; [|done].
  apply CommandProofs.execute_command_inv in H as (c & m1 & _ & _ & _ & Hb & _).
  rewrite Hlen in Hb. unfold MAX_COMMANDS in *. lia.
Qed.

Lemma execute_command_overflow_witness :
  let fill := replicate 50 (Execute (insert_hello demo)) in
  run fill (create_command_manager, demo_mem demo) = Some (demo_after fill) ∧
  execute_command (demo_after fill).1 (insert_bang demo) (demo_after fill).2 = None.
Proof.
  intros fill. split; [by_evaluation|].
  apply execute_command_overflow.
  - apply (run_wf_manager fill create_command_manager (demo_mem demo) _ (demo_after fill).2);
      [apply create_command_manager_wf|by_evaluation].
  - by_evaluation.
Defined.



(** Use after free: when the command that is executed is itself one of the
    commands waiting to be redone, [execute_command] destroys it and then
    records its address as the tip of the history; the next [undo_command]
    dereferences the destroyed object and has no defined result. *)
Theorem execute_command_use_after_free mgr p m mgr' m' j :
  current_index mgr + 1 <= j < history_size mgr →
  array_get (command_history mgr) j = Some (Some p) →
  execute_command mgr p m = Some (mgr', m') →
  array_get (command_history mgr') (current_index mgr') = Some (Some p) ∧
  commands m' !! p = None ∧
  undo_command mgr' m' = None.
Proof.
  intros Hj Hp H.
  apply CommandProofs.execute_command_inv in H as (c & m1 & _ & _ & Hcl & Hb & ->).
  apply CommandProofs.clear_future_frees in Hcl as (_ & _ & Hfreed).
  destruct (Hfreed j Hj) as (q & Hq & Hnone).
  rewrite Hp in Hq. simpl in Hq. assert (q = p) as -> by congruence.
  simpl. assert (Htip : array_get (<[Z.to_nat (current_index mgr + 1) := Some p]>
                                     (command_history mgr)) (current_index mgr + 1)
                        = Some (Some p)).
  { rewrite TextEditorProofs.array_get_insert by lia. by rewrite decide_True. }
  split_and!; [done|done|].
  unfold undo_command. simpl. rewrite decide_True by lia.
  rewrite Htip. simpl. by rewrite Hnone.
Qed.

Lemma execute_command_use_after_free_witness :
  let s0 := demo_after [Execute (insert_hello demo); Execute (insert_world demo); Undo] in
  ∃ s1,
    execute_command s0.1 (insert_world demo) s0.2 = Some s1 ∧
    array_get (command_history s1.1) (current_index s1.1) = Some (Some (insert_world demo)) ∧
    commands s1.2 !! insert_world demo = None ∧
    undo_command s1.1 s1.2 = None.
Proof.
  intros s0.
  destruct (execute_command s0.1 (insert_world demo) s0.2) as [[mgr' m']|] eqn:H;
    [|by vm_compute in H].
  exists (mgr', m'). split; [done|].
  apply (execute_command_use_after_free s0.1 (insert_world demo) s0.2 mgr' m' 1).
  - by_arith.
  - by_evaluation.
  - done.
Defined.

(** ** Destroying the manager *)

(** The destroy loop over slots that hold the addresses [ps]. *)
Lemma destroy_loop_free_all h (ps : list ptr) i m :
  (∀ k q, ps !! k = Some q → array_get h (i + Z.of_nat k) = Some (Some q)) →
  iter_up (length ps) i
    (λ i m, p ← array_get h i ≫= id; c ← commands m !! p; destroy c p m) m
  = free_all ps m.
Proof.
  revert i m. induction ps as [|p ps IH]; intros i m Hslots; simpl; [done|].
  pose proof (Hslots O p eq_refl) as H0. replace (i + Z.of_nat 0) with i in H0 by lia.
  rewrite H0. simpl. unfold destroy, command_destroy.
  destruct (commands m !! p) as [c|]; simpl; [|done].
  apply IH. intros k q Hk.
  replace (i + 1 + Z.of_nat k) with (i + Z.of_nat (S k)) by lia. by apply Hslots.
Qed.

Lemma free_all_frees ps m :
  NoDup ps → Forall (λ q, is_Some (commands m !! q)) ps →
  ∃ m', free_all ps m = Some m' ∧ editors m' = editors m ∧ stdout m' = stdout m ∧
    ∀ q, commands m' !! q = if decide (q ∈ ps) then None else commands m !! q.
Proof.
  revert m. induction ps as [|p ps IH]; intros m Hnd Hlive; simpl.
  - exists m. split_and!; done.
  - apply NoDup_cons in Hnd as [Hp Hnd]. apply Forall_cons in Hlive as [[c Hc] Hlive].
    unfold command_destroy. rewrite Hc. simpl.
    destruct (IH (free_command p m) Hnd) as (m' & Hm' & He & Ho & Hcmds).
    + eapply Forall_impl; [apply Forall_forall; intros q Hq; exact (conj Hq
        (proj1 (Forall_forall _ _) Hlive q Hq))|].
      intros q [Hq [c' Hc']]. simpl. exists c'.
      rewrite lookup_delete_ne; [done|]. intros ->. done.
    + exists m'. split_and!; try done. intros q. rewrite Hcmds. simpl.
      destruct (decide (q = p)) as [->|Hne].
      * rewrite lookup_delete_eq.
        rewrite (decide_True (P := p ∈ p :: ps)) by (apply elem_of_cons; by left).
        by case_decide.
      * rewrite lookup_delete_ne by done.
        destruct (decide (q ∈ ps)).
        -- by rewrite decide_True by (apply elem_of_cons; by right).
        -- rewrite decide_False; [done|]. by apply not_elem_of_cons.
Qed.

(** [destroy_command_manager] on a history of pairwise distinct live
    commands frees exactly these commands and leaves the editor alone. *)
Theorem destroy_command_manager_frees mgr m ps :
  history_size mgr = Z.of_nat (length ps) →
  (∀ k q, ps !! k = Some q → array_get (command_history mgr) (Z.of_nat k) = Some (Some q)) →
  NoDup ps →
  Forall (λ q, is_Some (commands m !! q)) ps →
  ∃ m', destroy_command_manager mgr m = Some m' ∧
    editors m' = editors m ∧
    ∀ q, commands m' !! q = if decide (q ∈ ps) then None else commands m !! q.
Proof.
  intros Hsize Hslots Hnd Hlive.
  destruct (free_all_frees ps m Hnd Hlive) as (m' & Hm' & He & _ & Hcmds).
  exists m'. split_and!; [|done|done].
  unfold destroy_command_manager, for_up. rewrite Hsize.
  replace (Z.to_nat (Z.of_nat (length ps) - 0)) with (length ps) by lia.
  rewrite (destroy_loop_free_all _ ps); [done|].
  intros k q Hk. by apply Hslots.
Qed.

Lemma destroy_loop_live h n i m m' :
  iter_up n i (λ i m, p ← array_get h i ≫= id; c ← commands m !! p; destroy c p m) m
    = Some m' →
  ∀ k, i <= k < i + Z.of_nat n →
       ∃ q, array_get h k = Some (Some q) ∧ is_Some (commands m !! q).
Proof.
  revert i m. induction n as [|n IH]; intros i m H k Hk; simpl in H; [lia|].
  destruct (array_get h i) as [[p|]|] eqn:Hp; simplify_eq/=.
  destruct (commands m !! p) as [c|] eqn:Hc; simplify_eq/=.
  unfold destroy, command_destroy in H. rewrite Hc in H. simpl in H.
  destruct (decide (k = i)) as [->|Hne]; [eauto|].
  destruct (IH _ _ H k) as (q & Hq & [c' Hc']); [lia|].
  exists q. split; [done|]. simpl in Hc'.
  apply lookup_delete_Some in Hc' as [_ Hc']. eauto.
Qed.

Lemma destroy_loop_no_repeat h n i m m' :
  iter_up n i (λ i m, p ← array_get h i ≫= id; c ← commands m !! p; destroy c p m) m
    = Some m' →
  ∀ k1 k2 p, i <= k1 < k2 → k2 < i + Z.of_nat n →
    array_get h k1 = Some (Some p) → array_get h k2 = Some (Some p) → False.
Proof.
  revert i m. induction n as [|n IH]; intros i m H k1 k2 p Hk1 Hk2 H1 H2; simpl in H; [lia|].
  destruct (array_get h i) as [[p0|]|] eqn:Hp; simplify_eq/=.
  destruct (commands m !! p0) as [c|] eqn:Hc; simplify_eq/=.
  unfold destroy, command_destroy in H. rewrite Hc in H. simpl in H.
  destruct (decide (k1 = i)) as [->|Hne].
  - assert (p0 = p) as -> by congruence.
    destruct (destroy_loop_live _ _ _ _ _ H k2) as (q & Hq & [c' Hc']); [lia|].
    assert (q = p) as -> by congruence. simpl in Hc'.
    by rewrite lookup_delete_eq in Hc'.
  - apply (IH _ _ H k1 k2 p); [lia|lia|done|done].
Qed.

(** Double free: when one command object occupies two slots of the history
    (it was executed twice), [destroy_command_manager] destroys it twice and
    has no defined result. *)
Theorem destroy_command_manager_double_free mgr m k1 k2 p :
  0 <= k1 < k2 → k2 < history_size mgr →
  array_get (command_history mgr) k1 = Some (Some p) →
  array_get (command_history mgr) k2 = Some (Some p) →
  destroy_command_manager mgr m = None.
Proof.
  intros Hk1 Hk2 H1 H2.
  destruct (destroy_command_manager mgr m) as [m'|] eqn:H; [|done].
  unfold destroy_command_manager, for_up in H.
  destruct (destroy_loop_no_repeat _ _ _ _ _ H k1 k2 p); [lia|lia|done|done].
Qed.

Lemma destroy_command_manager_frees_witness :
  let s0 := demo_after [Execute (insert_hello demo); Execute (insert_world demo); Undo] in
  ∃ m', destroy_command_manager s0.1 s0.2 = Some m' ∧
    editors m' = editors s0.2 ∧
    ∀ q, commands m' !! q =
         if decide (q ∈ [insert_hello demo; insert_world demo]) then None
         else commands s0.2 !! q.
Proof.
  intros s0.
  apply (destroy_command_manager_frees s0.1 s0.2 [insert_hello demo; insert_world demo]).
  - by_evaluation.
  - intros [|[|k]] q Hq; simplify_eq/=; by_evaluation.
  - refine (bool_decide_unpack _ _). by_evaluation.
  - refine (bool_decide_unpack _ _). by_evaluation.
Defined.

Lemma destroy_command_manager_double_free_witness :
  let ops := [Execute (insert_hello demo); Execute (insert_hello demo)] in
  run ops (create_command_manager, demo_mem demo) = Some (demo_after ops) ∧
  destroy_command_manager (demo_after ops).1 (demo_after ops).2 = None.
Proof.
  intros ops. split; [by_evaluation|].
  apply (destroy_command_manager_double_free _ _ 0 1 (insert_hello demo)).
  - by_arith.
  - by_arith.
  - by_evaluation.
  - by_evaluation.
Defined.

(** ** An insertion through the manager: execute, undo, redo *)

Lemma destroy_loop_sub h n i m m' :
  iter_up n i (λ i m, p ← array_get h i ≫= id; c ← commands m !! p; destroy c p m) m
    = Some m' →
  ∀ q c, commands m' !! q = Some c → commands m !! q = Some c.
Proof.
  revert i m. induction n as [|n IH]; intros i m H q c Hq; simpl in H; [by simplify_eq|].
  destruct (array_get h i ≫= id) as [p|] eqn:Hp; simplify_eq/=.
  destruct (commands m !! p) as [c0|] eqn:Hc; simplify_eq/=.
  unfold destroy, command_destroy in H. rewrite Hc in H. simpl in H.
  apply (IH _ _ H) in Hq. simpl in Hq. by apply lookup_delete_Some in Hq as [_ ?].
Qed.

Lemma undo_command_step mgr p c m :
  0 <= current_index mgr →
  array_get (command_history mgr) (current_index mgr) = Some (Some p) →
  commands m !! p = Some c →
  undo_command mgr m =
    m' ← undo c p (printf (undoing_line c) m);
    Some (mkManager (command_history mgr) (current_index mgr - 1) (history_size mgr), m').
Proof.
  intros Hn Hp Hc. unfold undo_command. rewrite decide_True by lia.
  rewrite Hp. simpl. rewrite Hc. simpl. done.
Qed.

(** When [execute_command] of an insertion inside the text returns, and the
    command was not one of those it destroyed, the document holds the text
    with the insertion; [undo_command] then restores the text and the
    cursor of the history, and [redo_command] brings back both the text with
    the insertion and the manager as it was after the execution. *)
Theorem manager_insert_undo_redo mgr p m mgr1 m1 nm ep text position ed s t :
  execute_command mgr p m = Some (mgr1, m1) →
  commands m !! p = Some (InsertCommand nm ep text position) →
  is_Some (commands m1 !! p) →
  editors m !! ep = Some ed →
  c_chars (content ed) = Some s →
  c_chars text = Some t →
  0 <= position <= Z.of_nat (length s) →
  (length s + length t < length (content ed))%nat →
  let s1 := take (Z.to_nat position) s ++ t ++ drop (Z.to_nat position) s in
  ∃ ed1 mgr2 m2 ed2 m3 ed3,
    editors m1 !! ep = Some ed1 ∧ c_chars (content ed1) = Some s1 ∧
    undo_command mgr1 m1 = Some (mgr2, m2) ∧
    current_index mgr2 = current_index mgr ∧
    editors m2 !! ep = Some ed2 ∧ c_chars (content ed2) = Some s ∧
    redo_command mgr2 m2 = Some (mgr1, m3) ∧
    editors m3 !! ep = Some ed3 ∧ c_chars (content ed3) = Some s1.
Proof.
  intros Hex Hc [c1 Hc1] Hed Hs Ht Hpos Hfit s1.
  set (c := InsertCommand nm ep text position) in *.
  apply CommandProofs.execute_command_inv in Hex as (c' & ma & Hc' & Hexec & Hcl & Hb & ->).
  assert (c' = c) as -> by congruence.
  (* the execution *)
  destruct (TextEditorProofs.insert_command_execute_spec p nm ep text position
              (printf (executing_line c) m) ed s t)
    as (ed1 & ma' & He1 & Hed1 & Hcm1 & Hs1 & Hl1); try done.
  assert (ma' = ma) as ->.
  { change (execute c) with insert_command_execute in Hexec. congruence. }
  pose proof Hcl as Hsub. unfold clear_future, for_up in Hsub.
  apply CommandProofs.clear_future_frees in Hcl as (Hedm1 & _ & _).
  assert (Hed1' : editors m1 !! ep = Some ed1) by (by rewrite Hedm1).
  assert (Hcp : commands m1 !! p = Some c).
  { rewrite Hc1. apply (destroy_loop_sub _ _ _ _ _ Hsub) in Hc1.
    rewrite Hcm1 in Hc1. simpl in Hc1. congruence. }
  set (h1 := <[Z.to_nat (current_index mgr + 1) := Some p]> (command_history mgr)).
  assert (Htip : array_get h1 (current_index mgr + 1) = Some (Some p)).
  { unfold h1. rewrite TextEditorProofs.array_get_insert by lia. by rewrite decide_True. }
  (* the undo *)
  destruct (TextEditorProofs.insert_command_undo_spec p nm ep text position
              (printf (undoing_line c) m1) ed1 s t)
    as (ed2 & m2 & He2 & Hed2 & Hcm2 & Hs2 & Hl2); try done.
  assert (Hcp2 : commands m2 !! p = Some c) by (by rewrite Hcm2).
  (* the redo *)
  destruct (TextEditorProofs.insert_command_execute_spec p nm ep text position
              (printf (redoing_line c) m2) ed2 s t)
    as (ed3 & m3 & He3 & Hed3 & _ & Hs3 & _); try done; [lia|].
  exists ed1, (mkManager h1 (current_index mgr + 1 - 1) (current_index mgr + 1 + 1)),
         m2, ed2, m3, ed3.
  split_and!; try done.
  - rewrite (undo_command_step _ p c); [|simpl; lia|done|done].
    change (undo c) with insert_command_undo. by rewrite He2.
  - simpl. lia.
  - rewrite (CommandProofs.redo_command_step _ p c); simpl; [|lia| |done].
    + change (execute c) with insert_command_execute. rewrite He3. simpl.
      do 3 f_equal. lia.
    + by replace (current_index mgr + 1 - 1 + 1) with (current_index mgr + 1) by lia.
Qed.

Lemma manager_insert_undo_redo_witness :
  let s0 := demo_after [Execute (insert_hello demo)] in
  let s1 := demo_after [Execute (insert_hello demo); Execute (insert_world demo)] in
  ∃ ed1 mgr2 m2 ed2 m3 ed3,
    editors s1.2 !! demo_editor demo = Some ed1 ∧
    c_chars (content ed1) = Some (list_ascii_of_string "Hello World") ∧
    undo_command s1.1 s1.2 = Some (mgr2, m2) ∧
    current_index mgr2 = current_index s0.1 ∧
    editors m2 !! demo_editor demo = Some ed2 ∧
    c_chars (content ed2) = Some (list_ascii_of_string "Hello") ∧
    redo_command mgr2 m2 = Some (s1.1, m3) ∧
    editors m3 !! demo_editor demo = Some ed3 ∧
    c_chars (content ed3) = Some (list_ascii_of_string "Hello World").
Proof.
  intros s0 s1.
  apply (manager_insert_undo_redo s0.1 (insert_world demo) s0.2 s1.1 s1.2
           "Insert" (demo_editor demo) (zeroed_with 200 " World") 5
           (demo_editor_in s0) (list_ascii_of_string "Hello") (list_ascii_of_string " World")).
  - by_evaluation.
  - by_evaluation.
  - vm_compute. eauto.
  - by_evaluation.
  - by_evaluation.
  - by_evaluation.
  - by_arith.
  - by_arith.
Defined.

End ManagerProofs.

(** * simple_command.c: runs of the remote control *)
Module RemoteProofs.
Import SimpleCommand SimpleCommandProofs.

(* Runs from any remote control whose recorded commands are live. *)
Lemma run_safe ops r m :
  wf_remote r → 0 <= history_count r <= MAX_HISTORY →
  wf_mem m → recorded_ok r m → Forall (op_ok m) ops →
  ∃ r' m', run ops (r, m) = Some (r', m') ∧ wf_mem m' ∧ same_objects m m'.
Proof.
  revert r m. induction ops as [|op ops IH]; intros r m Hr Hn Hwf Hok Hops; simpl.
  - eauto using same_objects_refl.
  - apply Forall_cons in Hops as [Hop Hops].
    destruct (step_defined op r m) as (r1 & m1 & Hs & Hwf1 & Hok1 & Hso); try done.
    rewrite Hs. simpl. destruct (step_bounds _ _ _ _ _ Hr Hn Hs).
    destruct (IH r1 m1) as (r' & m' & Hrun & Hwf' & Hso'); try done.
    { eapply Forall_impl; [exact Hops|]. intros op'. by apply op_ok_same_objects. }
    eauto 10 using same_objects_trans.
Qed.

(** Memory safety: on a memory where every command object points to an
    allocated light, any sequence of presses of command objects and of undo
    presses on a new remote control runs without undefined behaviour; it
    allocates and frees nothing and leaves every command bound to its
    light. *)
Theorem remote_memory_safe ops m :
  wf_mem m → Forall (op_ok m) ops →
  ∃ r' m', run ops (create_remote, m) = Some (r', m') ∧ wf_mem m' ∧ same_objects m m'.
Proof.
  intros Hwf Hops. apply run_safe; try done.
  - intros i Hi. simpl in Hi. lia.
Qed.

Lemma remote_memory_safe_witness :
  ∃ r' m', run (demo_fill ++ [PressUndo; PressButton (dim demo)])
             (create_remote, demo_mem demo) = Some (r', m') ∧
           wf_mem m' ∧ same_objects (demo_mem demo) m'.
Proof.
  apply remote_memory_safe.
  - refine (bool_decide_unpack _ _). by_evaluation.
  - refine (bool_decide_unpack _ _). by_evaluation.
Defined.

(** ** What the history keeps *)

Lemma length_recorded r :
  wf_remote r → 0 <= history_count r <= MAX_HISTORY →
  length (recorded r) = Z.to_nat (history_count r).
Proof.
  intros Hr Hn. unfold recorded. apply length_take_le. rewrite Hr. lia.
Qed.

Lemma presses_recorded ps r m r' m' :
  wf_remote r → 0 <= history_count r <= MAX_HISTORY →
  run (PressButton <$> ps) (r, m) = Some (r', m') →
  recorded r' = take (Z.to_nat MAX_HISTORY) (recorded r ++ (Some <$> ps)) ∧
  history_count r' = Z.min MAX_HISTORY (history_count r + Z.of_nat (length ps)).
Proof.
  revert r m. induction ps as [|p ps IH]; intros r m Hr Hn Hrun; simpl in Hrun.
  - simplify_eq. rewrite app_nil_r. split; [|simpl; lia].
    symmetry. apply take_ge. rewrite length_recorded by done. lia.
  - destruct (press_button r p m) as [[r1 m1]|] eqn:Hp; simplify_eq/=.
    pose proof (step_bounds (PressButton p) r m r1 m1 Hr Hn Hp) as [Hr1 Hn1].
    destruct (IH r1 m1 Hr1 Hn1 Hrun) as [Hrec Hcount].
    apply press_button_inv in Hp as (c & m2 & _ & _ & _ & [(Hlt & Hb & ->)|(Hge & ->)]).
    + rewrite recorded_push in Hrec by (done || lia). rewrite <- app_assoc in Hrec.
      simpl in *. split; [done|lia].
    + split; [|lia]. rewrite Hrec.
      rewrite !take_app_length'; try done; rewrite length_recorded by done; lia.
Qed.

Lemma presses_execute_all ps r m r' m' :
  run (PressButton <$> ps) (r, m) = Some (r', m') → execute_all ps m = Some m'.
Proof.
  revert r m. induction ps as [|p ps IH]; intros r m Hrun; simpl in Hrun.
  - by simplify_eq.
  - destruct (press_button r p m) as [[r1 m1]|] eqn:Hp; simplify_eq/=.
    apply press_button_inv in Hp as (c & m2 & Hc & He & Heq & _). subst m2.
    rewrite Hc. simpl. rewrite He. simpl. eauto.
Qed.

(** The history keeps the first [MAX_HISTORY] commands pressed: any
    sequence of presses of command objects on a new remote control, in a
    memory where every command points to an allocated light, runs; every
    press calls the execute function of its command, also beyond the tenth;
    the recorded history is then the first ten commands pressed, in order,
    and [history_count] is the number of presses or ten, whichever is
    smaller. *)
Theorem history_keeps_first ps m :
  wf_mem m → Forall (λ p, is_Some (commands m !! p)) ps →
  ∃ r' m',
    run (PressButton <$> ps) (create_remote, m) = Some (r', m') ∧
    execute_all ps m = Some m' ∧
    recorded r' = Some <$> take (Z.to_nat MAX_HISTORY) ps ∧
    history_count r' = Z.min MAX_HISTORY (Z.of_nat (length ps)).
Proof.
  intros Hwf Hps.
  assert (Hok : recorded_ok create_remote m) by (intros i Hi; simpl in Hi; lia).
  assert (Hn0 : 0 <= history_count create_remote <= MAX_HISTORY) by done.
  destruct (run_safe (PressButton <$> ps) create_remote m create_remote_wf Hn0 Hwf Hok)
    as (r' & m' & Hrun & _).
  { apply Forall_fmap. eapply Forall_impl; [exact Hps|]. done. }
  destruct (presses_recorded ps create_remote m r' m' create_remote_wf Hn0 Hrun)
    as [Hrec Hn].
  exists r', m'. split_and!; [done|by eapply presses_execute_all| |done].
  rewrite Hrec. simpl. by rewrite fmap_take.
Qed.

Lemma history_keeps_first_witness :
  let ps := demo_presses ++ demo_presses ++ demo_presses in
  ∃ r' m',
    run (PressButton <$> ps) (create_remote, demo_mem demo) = Some (r', m') ∧
    execute_all ps (demo_mem demo) = Some m' ∧
    recorded r' = Some <$> take (Z.to_nat MAX_HISTORY) ps ∧
    history_count r' = Z.min MAX_HISTORY (Z.of_nat (length ps)).
Proof.
  intros ps.
  apply (history_keeps_first ps (demo_mem demo)).
  - refine (bool_decide_unpack _ _). by_evaluation.
  - refine (bool_decide_unpack _ _). by_evaluation.
Defined.

(** ** One command object pressed twice *)



(** ** Undoing a whole sequence *)

Lemma undo_all ps r m :
  wf_remote r → 0 <= history_count r →
  history_count r + Z.of_nat (length ps) <= MAX_HISTORY →
  NoDup ps → invertible_presses ps (r, m) →
  ∃ r' m',
    run ((PressButton <$> ps) ++ replicate (length ps) PressUndo) (r, m) = Some (r', m') ∧
    lights m' = lights m ∧
    recorded r' = recorded r ∧
    history_count r' = history_count r ∧
    wf_remote r' ∧
    ∀ q, q ∉ ps → commands m' !! q = commands m !! q.
Proof.
  revert r m. induction ps as [|p ps IH]; intros r m Hr Hn0 Hroom Hnd Hinv.
  - simpl. eauto 10.
  - cbn [length]. rewrite replicate_S_end, fmap_cons, <- app_comm_cons, app_assoc.
    simpl in Hroom. apply NoDup_cons in Hnd as [Hp Hnd].
    destruct Hinv as [(c & S & Hc & Hl & Hon) Hinv]. simpl in Hc, Hl, Hinv.
    (* the press of p *)
    destruct (execute_spec p c S (printf (pressing_line c) m) Hc Hl) as [o1 He1].
    assert (Hb0 : 0 <= history_count r < MAX_HISTORY) by lia.
    pose proof (press_button_room r p c m _ Hr Hb0 Hc He1) as Hpress.
    set (r1 := mkRemote _ _) in *. set (m1 := mkMem _ _ _) in *.
    assert (Hr1 : wf_remote r1) by (unfold wf_remote, r1; simpl; by rewrite length_insert).
    (* the presses and undos of the rest *)
    destruct (IH r1 m1) as (r2 & m2 & Hrun & Hl2 & Hrec2 & Hn2 & Hr2 & Hfr);
      [done|simpl; lia|simpl; lia|done|by apply Hinv|].
    assert (Hrec1 : recorded r1 = recorded r ++ [Some p]) by (by apply recorded_push).
    rewrite Hrec1 in Hrec2. simpl in Hn2.
    (* the undo of p *)
    assert (Hlen : length (recorded r) = Z.to_nat (history_count r))
      by (apply length_recorded; [done|lia]).
    assert (Htip : history r2 !! Z.to_nat (history_count r2 - 1) = Some (Some p)).
    { rewrite Hn2. replace (history_count r + 1 - 1) with (history_count r) by lia.
      rewrite <- (lookup_take_lt (history r2) (Z.to_nat (history_count r2))) by lia.
      fold (recorded r2). rewrite Hrec2, lookup_app_r by lia.
      by replace (Z.to_nat (history_count r) - length (recorded r))%nat with O by lia. }
    assert (Hc2 : commands (printf undo_line m2) !! p = Some (saved c S)).
    { simpl. rewrite Hfr by done. apply lookup_insert_eq. }
    assert (Hlt2 : lights (printf undo_line m2) !! light (saved c S)
                   = Some (forward_effect c S)).
    { simpl. rewrite Hl2, light_saved. apply lookup_insert_eq. }
    destruct (undo_spec p (saved c S) _ _ Hc2 Hlt2) as [o2 Hu].
    assert (Hpos : 0 < history_count r2) by lia.
    pose proof (press_undo_step r2 p (saved c S) m2 _ Hpos Htip Hc2 Hu) as Hundo.
    (* together *)
    eexists _, _. split.
    { cbn [run step fst snd]. rewrite Hpress. simpl. rewrite run_app, Hrun. simpl.
      rewrite Hundo. done. }
    simpl. split_and!.
    + rewrite Hl2, light_saved. simpl. rewrite insert_insert_eq.
      apply insert_id. rewrite Hl. f_equal.
      destruct S as [on b]. destruct c; simpl in *; by subst.
    + unfold recorded. simpl. rewrite Hn2.
      replace (history_count r + 1 - 1) with (history_count r) by lia.
      transitivity (take (Z.to_nat (history_count r)) (recorded r2)).
      { unfold recorded. rewrite take_take. f_equal. lia. }
      rewrite Hrec2. by apply take_app_length'.
    + lia.
    + done.
    + intros q Hq. apply not_elem_of_cons in Hq as [Hne Hq].
      rewrite Hfr by done. simpl. by rewrite lookup_insert_ne.
Qed.

(** Last in, first out: after a sequence of presses of pairwise distinct
    command objects that fits in the history, each finding its light with
    the [is_on] that its undo leaves, as many undo presses bring every light
    and the recorded history back to what they were before the first
    press. *)
Theorem undo_all_restores ps r m :
  wf_remote r → 0 <= history_count r →
  history_count r + Z.of_nat (length ps) <= MAX_HISTORY →
  NoDup ps → invertible_presses ps (r, m) →
  ∃ r' m',
    run ((PressButton <$> ps) ++ replicate (length ps) PressUndo) (r, m) = Some (r', m') ∧
    lights m' = lights m ∧
    recorded r' = recorded r ∧
    history_count r' = history_count r.
Proof.
  intros Hr Hn Hroom Hnd Hinv.
  destruct (undo_all ps r m Hr Hn Hroom Hnd Hinv) as (r' & m' & ? & ? & ? & ? & _).
  eauto 10.
Qed.

Lemma undo_all_restores_witness :
  ∃ r' m',
    run ((PressButton <$> demo_presses) ++ replicate 4 PressUndo)
        (create_remote, demo_mem demo) = Some (r', m') ∧
    lights m' = lights (demo_mem demo) ∧
    recorded r' = recorded create_remote ∧
    history_count r' = 0.
Proof.
  apply (undo_all_restores demo_presses create_remote (demo_mem demo)).
  - by_evaluation.
  - by_arith.
  - by_arith.
  - refine (bool_decide_unpack _ _). by_evaluation.
  - repeat (split; [eexists _, _; split_and!; by_evaluation
                   |intros s' H; vm_compute in H; injection H as <-]).
    exact I.
Defined.

(** ** What an operation leaves alone *)

Lemma execute_needs_light p c m m' :
  commands m !! p = Some c → execute c p m = Some m' → is_Some (lights m !! light c).
Proof.
  intros Hc He. destruct (lights m !! light c) as [l|] eqn:Hl; [eauto|].
  destruct c; simpl in *.
  - unfold turn_on_execute in He. rewrite Hc in He. simpl in He. by rewrite Hl in He.
  - unfold turn_off_execute in He. rewrite Hc in He. simpl in He. by rewrite Hl in He.
  - unfold brightness_execute in He. rewrite Hc in He. simpl in He. by rewrite Hl in He.
Qed.

Lemma undo_needs_light p c m m' :
  commands m !! p = Some c → undo c p m = Some m' → is_Some (lights m !! light c).
Proof.
  intros Hc He. destruct (lights m !! light c) as [l|] eqn:Hl; [eauto|].
  destruct c; simpl in *.
  - unfold turn_on_undo in He. rewrite Hc in He. simpl in He. by rewrite Hl in He.
  - unfold turn_off_undo in He. rewrite Hc in He. simpl in He. by rewrite Hl in He.
  - unfold brightness_undo in He. rewrite Hc in He. simpl in He. by rewrite Hl in He.
Qed.

(** A press changes no light but the one of the command pressed and no
    command object but that command, which keeps its name and its light; an
    undo press changes no light but the one of the command at the tip of
    the history, and no command object at all. *)
Theorem effects_are_local :
  (∀ r p c m r' m',
     commands m !! p = Some c →
     press_button r p m = Some (r', m') →
     (∀ q, q ≠ light c → lights m' !! q = lights m !! q) ∧
     (∀ q, q ≠ p → commands m' !! q = commands m !! q) ∧
     ∃ c', commands m' !! p = Some c' ∧ name c' = name c ∧ light c' = light c) ∧
  (∀ r p c m r' m',
     tip r = Some p → 0 < history_count r →
     commands m !! p = Some c →
     press_undo r m = Some (r', m') →
     (∀ q, q ≠ light c → lights m' !! q = lights m !! q) ∧
     commands m' = commands m).
Proof.
  split.
  - intros r p c m r' m' Hc Hp.
    apply press_button_inv in Hp as (c0 & m1 & Hc0 & He & -> & _).
    assert (c0 = c) as -> by congruence.
    destruct (execute_needs_light p c (printf (pressing_line c) m) _ Hc He) as [l Hl].
    destruct (execute_spec p c l (printf (pressing_line c) m) Hc Hl) as [out Hs]. rewrite Hs in He. simplify_eq. simpl.
    split_and!.
    + intros q Hq. by rewrite lookup_insert_ne.
    + intros q Hq. by rewrite lookup_insert_ne.
    + exists (saved c l). split_and!; [apply lookup_insert_eq|by destruct c|apply light_saved].
  - intros r p c m r' m' Htip Hn Hc Hu.
    apply press_undo_inv in Hu as [(_ & Hb & p0 & c0 & Hp0 & Hc0 & Hu & ->)|(? & _)]; [|lia].
    unfold tip in Htip. rewrite (array_get_lookup _ _ (Some p0)) in Htip by (done || lia).
    simpl in Htip. simplify_eq.
    destruct (undo_needs_light p c (printf undo_line m) _ Hc Hu) as [l Hl].
    destruct (undo_spec p c l (printf undo_line m) Hc Hl) as [out Hs]. rewrite Hs in Hu. simplify_eq. simpl.
    split; [|done]. intros q Hq. by rewrite lookup_insert_ne.
Qed.

Lemma effects_are_local_witness :
  let other := demo_two_lights.1 in
  let m := demo_two_lights.2 in
  ∃ r' m',
    press_button create_remote (dim demo) m = Some (r', m') ∧
    other ≠ bedroom_light demo ∧
    lights m !! other = Some (mkLight 0 50) ∧
    lights m' !! other = lights m !! other ∧
    commands m' !! bright demo = commands m !! bright demo.
Proof.
  intros other m.
  destruct (press_button create_remote (dim demo) m) as [[r' m']|] eqn:Hp;
    [|by vm_compute in Hp].
  destruct effects_are_local as [Hpress _].
  destruct (Hpress create_remote (dim demo)
              (BrightnessCommand "Set Brightness 25%" (bedroom_light demo) 25 0)
              m r' m') as (Hl & Hc & _); [by_evaluation|done|].
  exists r', m'. split_and!; [done|by_evaluation|by_evaluation| |].
  - apply Hl. by_evaluation.
  - apply Hc. by_evaluation.
Defined.

(** ** Allocation *)

(** The creators return an address that was not in use, add the new object
    there and leave every other object as it was: a light that is off with
    brightness 50, or the command object; a memory in which every command
    points to an allocated light stays so when the new command's light is
    allocated. *)
Theorem allocation_is_fresh :
  (∀ m, let '(p, m') := create_light m in
        lights m !! p = None ∧
        lights m' = <[p := mkLight 0 50]> (lights m) ∧
        commands m' = commands m ∧
        (wf_mem m → wf_mem m')) ∧
  (∀ c m, let '(p, m') := alloc_command c m in
        commands m !! p = None ∧
        commands m' = <[p := c]> (commands m) ∧
        lights m' = lights m ∧
        (wf_mem m → is_Some (lights m !! light c) → wf_mem m')).
Proof.
  split.
  - intros m. simpl.
    assert (Hf : lights m !! fresh (dom (lights m)) = None).
    { apply not_elem_of_dom. apply is_fresh. }
    split_and!; try done.
    intros Hwf p c Hc. simpl in *. destruct (Hwf p c Hc) as [l Hl].
    destruct (decide (light c = fresh (dom (lights m)))) as [He|Hne].
    + rewrite He in Hl. congruence.
    + rewrite lookup_insert_ne by done. eauto.
  - intros c m. simpl.
    assert (Hf : commands m !! fresh (dom (commands m)) = None).
    { apply not_elem_of_dom. apply is_fresh. }
    split_and!; try done.
    intros Hwf Hl p c' Hc'. simpl in *.
    destruct (decide (p = fresh (dom (commands m)))) as [->|Hne].
    + rewrite lookup_insert_eq in Hc'. by simplify_eq.
    + rewrite lookup_insert_ne in Hc' by done. by apply (Hwf p).
Qed.

End RemoteProofs.
